(** * A todo-list service: in-memory repository, router and authentication gate

    The development embeds the source files of the service:
    - [todoRepository.js]: the module-level store ([tasks], [nextId]) and its
      four operations;
    - [todoRouter.js]: the handlers of [GET /], [POST /create], [DELETE /:id];
    - [auth.js] and the error-handling middleware of [app.js].

    JavaScript values are embedded as an inductive type.  Numbers are the
    integer-valued ones and [NaN]: every number the program computes with
    (ids, lengths, the result of [parseInt]) is an integer or [NaN], and
    doubles are exact on integers below 2^53, far above any id a process can
    reach.  Strings are sequences of code units; the embedding uses the
    8-bit characters of [string], one per code unit. *)

From Stdlib Require Import ZArith Lia Ascii.
From stdpp Require Import base option list sorting strings gmap.

Local Open Scope Z_scope.
#[local] Set Warnings "-register-all".

(** ** JavaScript values *)

Module JS.

Inductive number :=
| NaN
| Int (z : Z).

Inductive value :=
| VUndefined
| VNull
| VBool (b : bool)
| VNum (n : number)
| VStr (s : string)
| VArr (items : list value)
| VObj (props : list (string * value)).

(** [a === b] on numbers: [NaN] differs from everything, itself included. *)
Definition strict_equal (a b : number) : bool :=
  match a, b with
  | Int x, Int y => x =? y
  | _, _ => false
  end.

(** Structural comparison of two values (used to count descriptions). *)
Definition number_eqb (a b : number) : bool :=
  match a, b with
  | NaN, NaN => true
  | Int x, Int y => x =? y
  | _, _ => false
  end.

Fixpoint value_eqb (v w : value) {struct v} : bool :=
  match v, w with
  | VUndefined, VUndefined => true
  | VNull, VNull => true
  | VBool a, VBool b => Bool.eqb a b
  | VNum a, VNum b => number_eqb a b
  | VStr a, VStr b => String.eqb a b
  | VArr a, VArr b =>
      (fix items_eqb (xs ys : list value) {struct xs} : bool :=
         match xs, ys with
         | [], [] => true
         | x :: xs', y :: ys' => value_eqb x y && items_eqb xs' ys'
         | _, _ => false
         end) a b
  | VObj a, VObj b =>
      (fix props_eqb (xs ys : list (string * value)) {struct xs} : bool :=
         match xs, ys with
         | [], [] => true
         | (k, x) :: xs', (k', y) :: ys' =>
             String.eqb k k' && value_eqb x y && props_eqb xs' ys'
         | _, _ => false
         end) a b
  | _, _ => false
  end.

(** ToBoolean. *)
Definition truthy (v : value) : bool :=
  match v with
  | VUndefined | VNull => false
  | VBool b => b
  | VNum NaN => false
  | VNum (Int z) => negb (z =? 0)
  | VStr s => negb (String.eqb s "")
  | VArr _ | VObj _ => true
  end.

(** Errors a handler can throw.  The only one this program can raise is the
    [TypeError] of reading a property of [undefined] or [null]. *)
Inductive error :=
| TypeError.

Inductive completion (A : Type) :=
| Normal (a : A)
| Throw (e : error).
Arguments Normal {A} a.
Arguments Throw {A} e.

Fixpoint own_property (props : list (string * value)) (key : string) : value :=
  match props with
  | [] => VUndefined
  | (k, v) :: rest => if String.eqb k key then v else own_property rest key
  end.

(** [v.key] (also the destructuring [const { key } = v]) for the keys the
    router reads: [task], [description] and [length].  None of them is
    inherited from a prototype, except [length] on strings and arrays.
    (Index keys of strings and arrays are never read and are not
    modelled.) *)
Definition get (v : value) (key : string) : completion value :=
  match v with
  | VUndefined | VNull => Throw TypeError
  | VBool _ | VNum _ => Normal VUndefined
  | VStr s =>
      Normal (if String.eqb key "length"
              then VNum (Int (Z.of_nat (String.length s)))
              else VUndefined)
  | VArr items =>
      Normal (if String.eqb key "length"
              then VNum (Int (Z.of_nat (length items)))
              else VUndefined)
  | VObj props => Normal (own_property props key)
  end.

(** *** [parseInt(s, 10)] *)

(** StrWhiteSpaceChar, within the 8-bit code units. *)
Definition isWhiteSpace (c : ascii) : bool :=
  let n := Z.of_N (Ascii.N_of_ascii c) in
  ((9 <=? n) && (n <=? 13)) || (n =? 32) || (n =? 160).

Fixpoint trimStart (s : string) : string :=
  match s with
  | String c rest => if isWhiteSpace c then trimStart rest else s
  | EmptyString => s
  end.

Definition digit (c : ascii) : option Z :=
  let n := Z.of_N (Ascii.N_of_ascii c) in
  if (48 <=? n) && (n <=? 57) then Some (n - 48) else None.

(** The value of the longest prefix of decimal digits; [acc] is [None]
    until a first digit has been read. *)
Fixpoint digits (s : string) (acc : option Z) : option Z :=
  match s with
  | String c rest =>
      match digit c with
      | Some d => digits rest (Some (10 * default 0 acc + d))
      | None => acc
      end
  | EmptyString => acc
  end.

(** Leading white space is skipped, one sign is read, then the longest run
    of decimal digits; the result is [NaN] when that run is empty.  (From
    2^53 on JavaScript rounds the value to a double, which is again at least
    2^53; the exact integer is kept here.) *)
Definition parseInt (input : string) : number :=
  let s := trimStart input in
  let '(sign, s) :=
    match s with
    | String c rest =>
        if Ascii.eqb c "-" then (-1, rest)
        else if Ascii.eqb c "+" then (1, rest)
        else (1, s)
    | EmptyString => (1, s)
    end in
  match digits s None with
  | None => NaN
  | Some z => Int (sign * z)
  end.

(** Induction on values that reaches the items of arrays and objects. *)
Section induction.
Variable P : value → Prop.
Hypothesis Hundefined : P VUndefined.
Hypothesis Hnull : P VNull.
Hypothesis Hbool : ∀ b, P (VBool b).
Hypothesis Hnum : ∀ n, P (VNum n).
Hypothesis Hstr : ∀ s, P (VStr s).
Hypothesis Harr : ∀ items, Forall P items → P (VArr items).
Hypothesis Hobj : ∀ props, Forall (λ kv, P kv.2) props → P (VObj props).

Fixpoint value_nested_ind (v : value) : P v :=
  match v with
  | VUndefined => Hundefined
  | VNull => Hnull
  | VBool b => Hbool b
  | VNum n => Hnum n
  | VStr s => Hstr s
  | VArr items =>
      Harr items
        ((fix all (l : list value) : Forall P l :=
            match l with
            | [] => List.Forall_nil P
            | x :: l' => List.Forall_cons P x l' (value_nested_ind x) (all l')
            end) items)
  | VObj props =>
      Hobj props
        ((fix all (l : list (string * value)) : Forall (λ kv, P kv.2) l :=
            match l with
            | [] => List.Forall_nil _
            | kv :: l' =>
                List.Forall_cons (λ kv, P kv.2) kv l'
                  (value_nested_ind kv.2) (all l')
            end) props)
  end.
End induction.

End JS.

Export JS.

(** ** The repository ([todoRepository.js]) *)

Module Repository.

Record task := Task { id : Z; description : value }.

(** The two module-level variables. *)
Record store := Store { tasks : list task; nextId : Z }.

(** [let tasks = []; let nextId = 1;] *)
Definition initial : store := Store [] 1.

Definition getAll (st : store) : list task * store :=
  (tasks st, st).

Definition create (description : value) (st : store) : task * store :=
  let task := Task (nextId st) description in
  (task, Store (tasks st ++ [task]) (nextId st + 1)).

Definition reset (st : store) : unit * store :=
  (tt, Store [] 1).

(** [Array.prototype.findIndex]: the first index whose element satisfies
    the predicate, or -1. *)
Fixpoint findIndex_from (p : task → bool) (l : list task) (i : Z) : Z :=
  match l with
  | [] => -1
  | t :: rest => if p t then i else findIndex_from p rest (i + 1)
  end.

Definition findIndex (p : task → bool) (l : list task) : Z :=
  findIndex_from p l 0.

(** [Array.prototype.splice(start, deleteCount)]: the array after the
    deletion, with the clamping of both arguments. *)
Definition splice (l : list task) (start deleteCount : Z) : list task :=
  let len := Z.of_nat (length l) in
  let actualStart :=
    if start <? 0 then Z.max (len + start) 0 else Z.min start len in
  let actualDeleteCount :=
    Z.min (Z.max deleteCount 0) (len - actualStart) in
  take (Z.to_nat actualStart) l
    ++ drop (Z.to_nat (actualStart + actualDeleteCount)) l.

Definition remove (id_ : number) (st : store) : bool * store :=
  let index :=
    findIndex (λ task, strict_equal (Int (id task)) id_) (tasks st) in
  if index =? -1 then (false, st)
  else (true, Store (splice (tasks st) index 1) (nextId st)).

(** *** Sequences of operations *)

Inductive op :=
| GetAll
| Create (description : value)
| Remove (id_ : number)
| Reset.

Inductive answer :=
| Tasks (l : list task)
| Created (t : task)
| Removed (b : bool)
| Done.

Definition step (o : op) (st : store) : answer * store :=
  match o with
  | GetAll => let '(l, st') := getAll st in (Tasks l, st')
  | Create d => let '(t, st') := create d st in (Created t, st')
  | Remove i => let '(b, st') := remove i st in (Removed b, st')
  | Reset => let '(_, st') := reset st in (Done, st')
  end.

Fixpoint run (ops : list op) (st : store) : list answer * store :=
  match ops with
  | [] => ([], st)
  | o :: rest =>
      let '(a, st') := step o st in
      let '(answers, st'') := run rest st' in
      (a :: answers, st'')
  end.

(** The ids handed out by the [create] calls of a run, in call order. *)
Fixpoint created_ids (answers : list answer) : list Z :=
  match answers with
  | [] => []
  | Created t :: rest => id t :: created_ids rest
  | _ :: rest => created_ids rest
  end.

Definition ids (st : store) : list Z := map id (tasks st).

(** A state the module can be in: reached from [initial] by some calls. *)
Definition reachable (st : store) : Prop :=
  ∃ ops, (run ops initial).2 = st.

(** Stored ids lie below the counter and are pairwise distinct. *)
Definition id_invariant (st : store) : Prop :=
  Forall (λ t, id t < nextId st) (tasks st) ∧ NoDup (ids st).

Definition count_description (d : value) (l : list task) : nat :=
  length (filter (λ t, value_eqb (description t) d = true) l).

(** Tasks are held in the order of their creation; as ids grow with every
    [create], this is the ascending order of ids (the order the comment of
    [getAll] names). *)
Definition sorted_by_id (l : list task) : Prop :=
  StronglySorted Z.lt (map id l).

(** The task does not match the id searched by [remove]. *)
Definition other_id (i : number) (t : task) : Prop :=
  strict_equal (Int (id t)) i = false.

(** The tasks built by the [create] calls of a run, in call order. *)
Fixpoint created_tasks (answers : list answer) : list task :=
  match answers with
  | [] => []
  | Created t :: rest => t :: created_tasks rest
  | _ :: rest => created_tasks rest
  end.

(** The number of [remove] calls of a run that returned [true]. *)
Fixpoint removals (answers : list answer) : nat :=
  match answers with
  | [] => 0
  | Removed true :: rest => S (removals rest)
  | _ :: rest => removals rest
  end.

End Repository.

(** ** The repository with its arrays as heap objects

    [tasks] is a variable that holds a reference to an array; [push] and
    [splice] update that array in place, [[...tasks]] and [[]] allocate a new
    one.  The task objects themselves are shared between the arrays (the
    copy of [getAll] is shallow); no code of the program writes to a task
    after it is built, so they are kept as values. *)

Module RepositoryHeap.

Import Repository (task, Task, id, description).

Abbreviation loc := positive.

Record memory :=
  Memory { heap : gmap loc (list task); tasks : loc; nextId : Z }.

Definition alloc (arr : list task) (h : gmap loc (list task))
  : loc * gmap loc (list task) :=
  let l := fresh (dom h) in (l, <[l := arr]> h).

Definition initial : memory :=
  let '(l, h) := alloc [] ∅ in Memory h l 1.

(** Reading through a reference gives [None] only on a dangling one. *)
Definition getAll (m : memory) : option (loc * memory) :=
  arr ← heap m !! tasks m;
  let '(l, h) := alloc arr (heap m) in
  Some (l, Memory h (tasks m) (nextId m)).

Definition create (description : value) (m : memory)
  : option (task * memory) :=
  arr ← heap m !! tasks m;
  let task := Task (nextId m) description in
  Some (task,
        Memory (<[tasks m := arr ++ [task]]> (heap m)) (tasks m)
               (nextId m + 1)).

Definition reset (m : memory) : unit * memory :=
  let '(l, h) := alloc [] (heap m) in (tt, Memory h l 1).

Definition remove (id_ : number) (m : memory) : option (bool * memory) :=
  arr ← heap m !! tasks m;
  let index :=
    Repository.findIndex (λ task, strict_equal (Int (id task)) id_) arr in
  if index =? -1 then Some (false, m)
  else Some (true,
             Memory (<[tasks m := Repository.splice arr index 1]> (heap m))
                    (tasks m) (nextId m)).

(** The store a memory represents. *)
Definition abstract (m : memory) : option Repository.store :=
  arr ← heap m !! tasks m;
  Some (Repository.Store arr (nextId m)).

Definition step (o : Repository.op) (m : memory) : option memory :=
  match o with
  | Repository.GetAll => snd <$> getAll m
  | Repository.Create d => snd <$> create d m
  | Repository.Remove i => snd <$> remove i m
  | Repository.Reset => Some (reset m).2
  end.

Fixpoint run (ops : list Repository.op) (m : memory) : option memory :=
  match ops with
  | [] => Some m
  | o :: rest => m' ← step o m; run rest m'
  end.

End RepositoryHeap.

(** ** The router ([todoRouter.js]), [auth.js] and the error handler of [app.js] *)

Module Router.

Import Repository.

(** What the program takes from its platform:
    - [jwt_verify token]: [jwt.verify(token, process.env.JWT_SECRET, cb)]
      calls [cb] without an error;
    - [coerced_lt v n]: the outcome of [v < n] when [v] is a string, an
      array or an object, which goes through ToPrimitive and
      StringToNumber. *)
Class Platform := {
  jwt_verify : string → bool;
  coerced_lt : value → Z → bool
}.

(** The request as the router receives it, after [express.json()]. *)
Record request := Request {
  authorization : option string;   (* req.headers["authorization"] *)
  body : value;                    (* req.body *)
  params_id : string               (* req.params.id *)
}.

Inductive content :=
| Json (v : value)
| ErrorJson (e : error) (status : Z)   (* { error: { message, status } } *)
| Empty.

Record response := Response { status : Z; sent : content }.

(** Stages of a request, logged in the order they run: [EvAuth] on entry
    of the [auth] middleware, [EvValidate] on entry of a handler's [try]
    block, before it reads its input, and [EvRepository o] at each call of
    a function of [todoRepo]. *)
Inductive event :=
| EvAuth
| EvValidate
| EvRepository (o : op).

Record world := World { repo : store; log : list event }.

(** The world after more stages have been logged. *)
Definition logged (w : world) (evs : list event) : world :=
  World (repo w) (log w ++ evs).

(** Handlers: a computation on the world that returns or throws. *)
Definition M (A : Type) : Type := world → completion A * world.

#[export] Instance M_ret : MRet M := λ A a w, (Normal a, w).

#[export] Instance M_bind : MBind M := λ A B f m w,
  match m w with
  | (Normal a, w') => f a w'
  | (Throw e, w') => (Throw e, w')
  end.

Definition lift {A} (c : completion A) : M A := λ w, (c, w).

Definition try_catch {A} (block : M A) (handler : error → M A) : M A :=
  λ w,
    match block w with
    | (Normal a, w') => (Normal a, w')
    | (Throw e, w') => handler e w'
    end.

Definition emit (e : event) : M unit :=
  λ w, (Normal tt, World (repo w) (log w ++ [e])).

(** A call into the repository module: logged, then run on the store. *)
Definition on_store {A} (f : store → A * store) : M A :=
  λ w, let '(a, st) := f (repo w) in (Normal a, World st (log w)).

Definition call {A} (o : op) (f : store → A * store) : M A :=
  emit (EvRepository o);; on_store f.

Definition todoRepo_getAll : M (list task) := call GetAll getAll.
Definition todoRepo_create (d : value) : M task := call (Create d) (create d).
Definition todoRepo_remove (i : number) : M bool := call (Remove i) (remove i).

Definition task_json (t : task) : value :=
  VObj [("id", VNum (Int (id t))); ("description", description t)].

Section handlers.
Context `{Platform}.

(** [v < n] for an integer [n]. *)
Definition less_than (v : value) (n : Z) : bool :=
  match v with
  | VUndefined => false
  | VNull => 0 <? n
  | VBool b => (if b then 1 else 0) <? n
  | VNum NaN => false
  | VNum (Int z) => z <? n
  | VStr _ | VArr _ | VObj _ => coerced_lt v n
  end.

Inductive control :=
| Next
| Sent (r : response).

Definition auth (req : request) : M control :=
  emit EvAuth;;
  match authorization req with
  | None =>
      mret (Sent (Response 401
                    (Json (VObj [("message", VStr "No token provided")]))))
  | Some token =>
      if negb (truthy (VStr token)) then
        mret (Sent (Response 401
                      (Json (VObj [("message", VStr "No token provided")]))))
      else if jwt_verify token then mret Next
      else
        mret (Sent (Response 401
                      (Json (VObj [("message",
                                    VStr "Failed to authenticate token")]))))
  end.

(** The last middleware of [app.js]. *)
Definition error_status (err : error) : option Z :=
  match err with TypeError => None end.

Definition error_handler (err : error) : M response :=
  let status := default 500 (error_status err) in
  mret (Response status (ErrorJson err status)).

Definition get_root (req : request) : M response :=
  try_catch
    (tasks ← todoRepo_getAll;
     mret (Response 200 (Json (VArr (map task_json tasks)))))
    error_handler.

Definition post_create (req : request) : M response :=
  try_catch
    (emit EvValidate;;
     task ← lift (get (body req) "task");
     missing ← (if truthy task
                then d ← lift (get task "description");
                     mret (negb (truthy d))
                else mret true);
     if missing : bool then
       mret (Response 400 (Json (VObj [("error", VStr "Task is required")])))
     else
       d ← lift (get task "description");
       len ← lift (get d "length");
       if less_than len 3 then
         mret (Response 400
                 (Json (VObj [("error",
                    VStr "Description must be at least 3 characters long")])))
       else
         created ← todoRepo_create d;
         mret (Response 201 (Json (task_json created))))
    error_handler.

Definition delete_id (req : request) : M response :=
  try_catch
    (emit EvValidate;;
     let id_ := parseInt (params_id req) in
     deleted ← todoRepo_remove id_;
     if deleted : bool then mret (Response 204 Empty)
     else
       mret (Response 404 (Json (VObj [("error", VStr "Task not found")]))))
    error_handler.

(** [router.METHOD(path, auth, handler)]. *)
Definition protected (handler : request → M response) (req : request)
  : M response :=
  c ← auth req;
  match c with
  | Next => handler req
  | Sent r => mret r
  end.

Definition route_get : request → M response := get_root.
Definition route_post_create : request → M response := protected post_create.
Definition route_delete : request → M response := protected delete_id.

End handlers.

(** The description is text of at least three characters. *)
Definition long_enough (d : value) : bool :=
  match d with
  | VStr s => 3 <=? Z.of_nat (String.length s)
  | _ => false
  end.

(** The description a [task] value carries when it is an object whose
    description is long enough. *)
Definition valid_description (task : value) : option value :=
  match task with
  | VObj props =>
      let d := own_property props "description" in
      if long_enough d then Some d else None
  | _ => None
  end.

(** The path segment is a decimal numeral: digits only, at least one. *)
Fixpoint all_digits (s : string) : bool :=
  match s with
  | String c rest => bool_decide (is_Some (digit c)) && all_digits rest
  | EmptyString => true
  end.

Definition is_numeral (s : string) : bool :=
  negb (String.eqb s "") && all_digits s.

Fixpoint has_digit (s : string) : bool :=
  match s with
  | String c rest => bool_decide (is_Some (digit c)) || has_digit rest
  | EmptyString => false
  end.

(** Stages run in the order authentication, validation, repository. *)
Definition stage (e : event) : nat :=
  match e with
  | EvAuth => 0
  | EvValidate => 1
  | EvRepository _ => 2
  end.

Definition staged (evs : list event) : Prop :=
  StronglySorted lt (map stage evs) ∧
  (∀ o, EvRepository o ∈ evs → EvValidate ∈ evs) ∧
  (EvValidate ∈ evs → EvAuth ∈ evs).

(** A platform to run requests on: one token verifies, and no coercion
    makes a value compare below a number. *)
Definition demo_platform : Platform :=
  {| jwt_verify := λ token, String.eqb token "signed-token";
     coerced_lt := λ _ _, false |}.

(** A request passes the authentication gate. *)
Definition authenticated `{Platform} (req : request) : Prop :=
  ∃ token, authorization req = Some token ∧ token ≠ "" ∧ jwt_verify token = true.

(** Both checks of [POST /create] let the description [d] of the request
    through: [task] and [task.description] are truthy, and
    [task.description.length < 3] is false. *)
Definition passes_validation `{Platform} (req : request) (d : value) : Prop :=
  ∃ task len,
    get (body req) "task" = Normal task ∧ truthy task = true ∧
    get task "description" = Normal d ∧ truthy d = true ∧
    get d "length" = Normal len ∧ less_than len 3 = false.

End Router.

(** ** The application ([app.js]) and its clients ([app.int.test.js]) *)

Module App.

Import Repository Router.

(** The three routes the router registers. *)
Inductive endpoint :=
| GET_root
| POST_create
| DELETE_id.

Definition handle `{Platform} (e : endpoint) : request → M response :=
  match e with
  | GET_root => route_get
  | POST_create => route_post_create
  | DELETE_id => route_delete
  end.

(** Requests are served one after the other on the same module state. *)
Fixpoint serve `{Platform} (reqs : list (endpoint * request)) (w : world)
  : list (completion response) * world :=
  match reqs with
  | [] => ([], w)
  | (e, req) :: rest =>
      let '(c, w') := handle e req w in
      let '(cs, w'') := serve rest w' in
      (c :: cs, w'')
  end.

(** [res.body.id] of a 201 response, as the tests read it. *)
Definition created_id (c : completion response) : option Z :=
  match c with
  | Normal r =>
      if status r =? 201 then
        match sent r with
        | Json v =>
            match get v "id" with
            | Normal (VNum (Int z)) => Some z
            | _ => None
            end
        | _ => None
        end
      else None
  | Throw _ => None
  end.

(** The decimal numeral of an integer id: what the template literal
    [`/${taskId}`] makes of it.  Number::toString writes a safe integer
    (below 2^53 in absolute value) with all its decimal digits and a
    leading minus sign when negative.  Larger numbers are written with the
    shortest digits that read back as the same double and, from 10^21 on,
    with an exponent; they are not embedded: [to_string] is [None] there. *)
Definition MAX_SAFE_INTEGER : Z := 2 ^ 53 - 1.

Definition digit_char (d : Z) : ascii :=
  ascii_of_N (Z.to_N (48 + d)).

Fixpoint decimal (fuel : nat) (n : Z) (acc : string) : string :=
  match fuel with
  | O => acc
  | S fuel' =>
      let acc' := String (digit_char (n mod 10)) acc in
      if n <? 10 then acc' else decimal fuel' (n / 10) acc'
  end.

Definition to_string (n : Z) : option string :=
  if Z.abs n <=? MAX_SAFE_INTEGER then
    Some (if n <? 0
          then String "-" (decimal (S (Z.to_nat (Z.log2 (- n)))) (- n) "")
          else decimal (S (Z.to_nat (Z.log2 n))) n "")
  else None.

(** The requests of the tests: a body with a task description, and a path
    of one segment. *)
Definition create_request (token : option string) (d : value) : request :=
  Request token (VObj [("task", VObj [("description", d)])]) "".

Definition delete_request (token : option string) (segment : string)
  : request :=
  Request token VUndefined segment.

(** The two rejections of [POST /create]. *)
Definition task_required : response :=
  Response 400 (Json (VObj [("error", VStr "Task is required")])).

Definition description_too_short : response :=
  Response 400
    (Json (VObj [("error",
                  VStr "Description must be at least 3 characters long")])).

(** The two rejections of [auth]. *)
Definition no_token : response :=
  Response 401 (Json (VObj [("message", VStr "No token provided")])).

Definition bad_token : response :=
  Response 401 (Json (VObj [("message", VStr "Failed to authenticate token")])).

End App.

(** * Properties *)

(** ** Values *)

Section value_facts.

Lemma number_eqb_eq (a b : number) : number_eqb a b = true ↔ a = b.
Proof.
  destruct a, b; simpl; try (split; (discriminate || done)).
  rewrite Z.eqb_eq. split; congruence.
Qed.

Lemma value_eqb_eq (v w : value) : value_eqb v w = true ↔ v = w.
Proof.
  revert w. induction v using value_nested_ind; intros w;
    destruct w; simpl; try (split; (discriminate || done)).
  - rewrite Bool.eqb_true_iff. split; congruence.
  - rewrite number_eqb_eq. split; congruence.
  - rewrite String.eqb_eq. split; congruence.
  - rename items0 into ys. revert ys.
    induction H as [|x xs Hx _ IH]; intros [|y ys];
      try (split; (discriminate || done)).
    rewrite andb_true_iff, Hx, (IH ys).
    split; [intros [-> [= ->]]; done | intros [= -> ->]; done].
  - rename props0 into ys. revert ys.
    induction H as [|[k x] xs Hx _ IH]; intros [|[k' y] ys];
      try (split; (discriminate || done)).
    simpl in Hx.
    rewrite !andb_true_iff, String.eqb_eq, Hx, (IH ys).
    split; [intros [[-> ->] [= ->]]; done | intros [= -> -> ->]; done].
Qed.

Lemma value_eqb_refl (v : value) : value_eqb v v = true.
Proof. by apply value_eqb_eq. Qed.

Lemma strict_equal_true (a b : number) :
  strict_equal a b = true ↔ ∃ z, a = Int z ∧ b = Int z.
Proof.
  destruct a, b; simpl; try (split; [discriminate | intros (? & ? & ?); discriminate]).
  rewrite Z.eqb_eq. split; [intros ->; eauto | intros (? & [= ->] & [= ->]); done].
Qed.

Lemma strict_equal_NaN (a : number) : strict_equal a NaN = false.
Proof. by destruct a. Qed.

End value_facts.

(** ** The repository *)

Section repository_facts.

Import Repository.

Implicit Types (st : store) (t : task) (l : list task) (i : number)
  (o : op) (ops : list op) (d : value).

(** *** [findIndex] and [splice] *)

Lemma findIndex_from_cases (p : task → bool) l (k : Z) :
  (Forall (λ t, p t = false) l ∧ findIndex_from p l k = -1) ∨
  (∃ l1 t l2, l = l1 ++ t :: l2 ∧ Forall (λ t, p t = false) l1 ∧
     p t = true ∧ findIndex_from p l k = k + Z.of_nat (length l1)).
Proof.
  revert k. induction l as [|t l IH]; intros k; simpl.
  - left. by split.
  - destruct (p t) eqn:Hp.
    + right. exists [], t, l. simpl. repeat split; [done | done | lia].
    + destruct (IH (k + 1)) as [[Hall ->] | (l1 & t' & l2 & -> & Hall & Ht' & ->)].
      * left. split; [by constructor | done].
      * right. exists (t :: l1), t', l2. simpl.
        repeat split; [by constructor | done | lia].
Qed.

Lemma splice_one l1 t l2 :
  splice (l1 ++ t :: l2) (Z.of_nat (length l1)) 1 = l1 ++ l2.
Proof.
  unfold splice. rewrite length_app. simpl length.
  destruct (Z.ltb_spec (Z.of_nat (length l1)) 0) as [Hneg | _]; [lia |].
  replace (Z.min (Z.of_nat (length l1)) (Z.of_nat (length l1 + S (length l2))))
    with (Z.of_nat (length l1)) by lia.
  replace (Z.min (Z.max 1 0) _) with 1 by lia.
  rewrite Nat2Z.id.
  replace (Z.to_nat (Z.of_nat (length l1) + 1)) with (length l1 + 1)%nat by lia.
  rewrite take_app_length.
  by rewrite drop_app_add.
Qed.

Lemma remove_cases i st :
  (Forall (other_id i) (tasks st) ∧ remove i st = (false, st)) ∨
  (∃ l1 t l2, tasks st = l1 ++ t :: l2 ∧ Forall (other_id i) l1 ∧
     i = Int (id t) ∧ remove i st = (true, Store (l1 ++ l2) (nextId st))).
Proof.
  unfold remove, findIndex.
  destruct (findIndex_from_cases (λ t, strict_equal (Int (id t)) i) (tasks st) 0)
    as [[Hall ->] | (l1 & t & l2 & Htasks & Hall & Ht & ->)].
  - left. by split.
  - right. exists l1, t, l2.
    apply strict_equal_true in Ht as (z & [= <-] & ->).
    repeat split; [done | done |].
    destruct (Z.eqb_spec (0 + Z.of_nat (length l1)) (-1)) as [Heq | _]; [lia |].
    by rewrite Htasks, Z.add_0_l, splice_one.
Qed.

Lemma other_id_Int (z : Z) t : other_id (Int z) t ↔ id t ≠ z.
Proof.
  unfold other_id. simpl. destruct (Z.eqb_spec (id t) z); split; congruence.
Qed.

Lemma other_id_all i l :
  Forall (other_id i) l ↔ ∀ t, t ∈ l → Int (id t) ≠ i.
Proof.
  rewrite Forall_forall. apply forall_proper; intros t.
  apply forall_proper; intros _.
  destruct i as [|z]; [split; [discriminate | done] |].
  rewrite other_id_Int. split; congruence.
Qed.

(** *** Runs *)

Lemma run_app ops1 ops2 st :
  run (ops1 ++ ops2) st =
    ((run ops1 st).1 ++ (run ops2 (run ops1 st).2).1,
     (run ops2 (run ops1 st).2).2).
Proof.
  revert st. induction ops1 as [|o ops1 IH]; intros st; simpl.
  - by destruct (run ops2 st).
  - destruct (step o st) as [a st1]. rewrite IH.
    by destruct (run ops1 st1) as [a1 st2].
Qed.

Lemma reachable_step o st : reachable st → reachable (step o st).2.
Proof.
  intros [ops <-]. exists (ops ++ [o]). rewrite run_app. simpl.
  by destruct (step o _).
Qed.

Lemma reachable_run ops st : reachable st → reachable (run ops st).2.
Proof.
  revert st. induction ops as [|o ops IH]; intros st Hst; simpl; [done |].
  pose proof (reachable_step o st Hst) as Hstep.
  destruct (step o st) as [a st1]. specialize (IH st1 Hstep).
  by destruct (run ops st1).
Qed.

(** *** The invariant on ids *)

Lemma id_invariant_initial : id_invariant initial.
Proof. split; [constructor | apply NoDup_nil_2]. Qed.

Lemma id_invariant_create d st :
  id_invariant st → id_invariant (create d st).2.
Proof.
  intros [Hlt Hnd]. split; simpl.
  - apply Forall_app. split.
    + eapply Forall_impl; [exact Hlt |]. intros t Ht. simpl in Ht. lia.
    + repeat constructor. simpl. lia.
  - unfold ids. simpl. rewrite map_app. simpl.
    apply NoDup_app. repeat split; [done | | apply NoDup_singleton].
    intros z Hz ->%list_elem_of_singleton.
    apply list_elem_of_fmap in Hz as (t & Hid & Ht).
    rewrite Forall_forall in Hlt. specialize (Hlt t Ht). lia.
Qed.

Lemma id_invariant_remove i st :
  id_invariant st → id_invariant (remove i st).2.
Proof.
  intros [Hlt Hnd].
  destruct (remove_cases i st) as [[_ ->] | (l1 & t & l2 & Htasks & _ & _ & ->)];
    [done |].
  unfold id_invariant, ids in *. rewrite Htasks in *. simpl.
  rewrite Forall_app, Forall_cons in Hlt. destruct Hlt as (H1 & _ & H2).
  split; [by apply Forall_app |].
  rewrite map_app in *. simpl in Hnd.
  apply NoDup_app in Hnd as (Hn1 & Hdisj & Hn2).
  apply NoDup_cons in Hn2 as [_ Hn2].
  apply NoDup_app. repeat split; [done | | done].
  intros z Hz Hz'. apply (Hdisj z Hz). by right.
Qed.

Lemma id_invariant_step o st : id_invariant st → id_invariant (step o st).2.
Proof.
  intros Hinv. destruct o as [|d|i|]; simpl.
  - done.
  - by apply id_invariant_create.
  - pose proof (id_invariant_remove i st Hinv). by destruct (remove i st).
  - apply id_invariant_initial.
Qed.

Lemma reachable_invariant st : reachable st → id_invariant st.
Proof.
  intros [ops <-]. induction ops as [|o ops IH] using rev_ind.
  - apply id_invariant_initial.
  - rewrite run_app. simpl.
    pose proof (id_invariant_step o _ IH). by destruct (step o _).
Qed.

(** *** Order of the stored tasks *)

Lemma sorted_by_id_snoc l t :
  sorted_by_id l → Forall (λ t', id t' < id t) l → sorted_by_id (l ++ [t]).
Proof.
  unfold sorted_by_id. intros Hs Hlt. rewrite map_app. simpl.
  induction l as [|t0 l IH]; simpl in *.
  - repeat constructor.
  - apply StronglySorted_inv in Hs as [Hs Hall].
    apply Forall_cons in Hlt as [Ht0 Hlt].
    constructor; [by apply IH |].
    apply Forall_app. split; [done | by repeat constructor].
Qed.

Lemma sorted_by_id_sublist l l' :
  sublist l' l → sorted_by_id l → sorted_by_id l'.
Proof.
  unfold sorted_by_id. intros Hsub Hs.
  induction Hsub as [|t l1 l2 Hsub IH|t l1 l2 Hsub IH]; simpl in *.
  - done.
  - apply StronglySorted_inv in Hs as [Hs Hall]. constructor; [by apply IH |].
    eapply Forall_forall. intros z Hz. rewrite Forall_forall in Hall.
    apply Hall. apply list_elem_of_fmap in Hz as (t' & -> & Ht').
    apply list_elem_of_fmap. exists t'. split; [done |].
    by eapply sublist_subseteq.
  - apply StronglySorted_inv in Hs as [Hs _]. by apply IH.
Qed.

Lemma remove_sublist i st : sublist (tasks (remove i st).2) (tasks st).
Proof.
  destruct (remove_cases i st) as [[_ ->] | (l1 & t & l2 & -> & _ & _ & ->)];
    simpl; [done |].
  apply sublist_app; [done | by apply sublist_cons].
Qed.

Lemma reachable_sorted st : reachable st → sorted_by_id (tasks st).
Proof.
  intros [ops <-]. induction ops as [|o ops IH] using rev_ind.
  - constructor.
  - assert (Hinv : id_invariant (run ops initial).2)
      by (apply reachable_invariant; by exists ops).
    rewrite run_app. simpl. destruct o as [|d|i|]; simpl.
    + done.
    + apply sorted_by_id_snoc; [done | apply Hinv].
    + pose proof (remove_sublist i (run ops initial).2) as Hsub.
      destruct (remove i _) as [b st']. simpl in *.
      by eapply sorted_by_id_sublist.
    + constructor.
Qed.

End repository_facts.

(** ** Claims on the repository *)

Section repository_claims.

Import Repository.

Implicit Types (st : store) (t : task) (l : list task) (i : number)
  (o : op) (ops : list op) (d : value).

(** C9. Every operation of the repository ([getAll], [create], [remove],
    [reset]) preserves the invariant that each stored task has an id
    strictly below the counter [nextId] and that the stored ids are
    pairwise distinct; the initial empty store, with [nextId = 1],
    satisfies it. *)
Theorem operations_preserve_id_invariant :
  (tasks initial = [] ∧ nextId initial = 1 ∧ id_invariant initial) ∧
  ∀ st, id_invariant st →
    id_invariant (getAll st).2 ∧
    (∀ d, id_invariant (create d st).2) ∧
    (∀ i, id_invariant (remove i st).2) ∧
    id_invariant (reset st).2.
Proof.
  split; [by auto using id_invariant_initial |].
  intros st Hinv. repeat split.
  - apply Hinv.
  - apply Hinv.
  - by apply id_invariant_create.
  - by apply id_invariant_create.
  - by apply id_invariant_remove.
  - by apply id_invariant_remove.
  - constructor.
  - apply NoDup_nil_2.
Qed.

Lemma operations_preserve_id_invariant_witness :
  id_invariant initial ∧
  id_invariant (remove (Int 1) (create (VStr "buy milk") initial).2).2.
Proof.
  assert (H0 : id_invariant initial) by (split; constructor).
  split; [exact H0 |].
  apply (proj2 operations_preserve_id_invariant).
  by apply (proj2 operations_preserve_id_invariant initial).
Defined.

(** C5. In every state of the store and for every id: when some stored task
    has that id, [remove] returns [true], the store holds exactly one task
    less and no task returned by [getAll] has that id any more; when no
    stored task has it, [remove] returns [false] and the store (tasks, their
    order and the counter) is unchanged. *)
Theorem remove_present_or_absent st i :
  reachable st →
  ((∃ t, t ∈ tasks st ∧ Int (id t) = i) →
     (remove i st).1 = true ∧
     (length (getAll (remove i st).2).1 + 1 = length (getAll st).1)%nat ∧
     ∀ t, t ∈ (getAll (remove i st).2).1 → Int (id t) ≠ i) ∧
  ((∀ t, t ∈ tasks st → Int (id t) ≠ i) → remove i st = (false, st)).
Proof.
  intros [_ Hnd]%reachable_invariant. split.
  - intros (t0 & Ht0 & <-).
    destruct (remove_cases (Int (id t0)) st)
      as [[Hall _] | (l1 & t & l2 & Htasks & Hall & [= Hid] & ->)].
    + rewrite Forall_forall in Hall. specialize (Hall t0 Ht0).
      apply other_id_Int in Hall. done.
    + simpl. rewrite Htasks, !length_app. simpl.
      repeat split; [lia |].
      unfold ids in Hnd. rewrite Htasks, map_app in Hnd. simpl in Hnd.
      apply NoDup_app in Hnd as (_ & Hdisj & [Hnotin _]%NoDup_cons).
      intros t' [Hin | Hin]%elem_of_app [= Heq].
      * apply (Hdisj (id t')); [by apply list_elem_of_fmap_2 |].
        rewrite Heq, Hid. by left.
      * apply Hnotin. rewrite <- Hid, <- Heq. by apply list_elem_of_fmap_2.
  - intros Hnone.
    destruct (remove_cases i st)
      as [[_ Heq] | (l1 & t & l2 & Htasks & _ & -> & _)]; [done |].
    exfalso. apply (Hnone t); [| done]. rewrite Htasks.
    apply elem_of_app. right. by left.
Qed.

Lemma remove_present_or_absent_witness :
  (remove (Int 1) (create (VStr "buy milk") initial).2).1 = true ∧
  remove (Int 7) (create (VStr "buy milk") initial).2
    = (false, (create (VStr "buy milk") initial).2).
Proof.
  assert (Hreach : reachable (create (VStr "buy milk") initial).2)
    by (by exists [Create (VStr "buy milk")]).
  split.
  - apply (remove_present_or_absent _ (Int 1) Hreach).
    exists (Task 1 (VStr "buy milk")). split; [by left | done].
  - apply (remove_present_or_absent _ (Int 7) Hreach).
    intros t ->%list_elem_of_singleton. discriminate.
Defined.

(** C10. In every state of the store and for every id, [remove] deletes at
    most one task, the first whose id matches, and keeps the relative order
    of all the others, so that the stored tasks stay in insertion order. *)
Theorem remove_keeps_order st i :
  (tasks (remove i st).2 = tasks st ∨
   ∃ l1 t l2, tasks st = l1 ++ t :: l2 ∧ tasks (remove i st).2 = l1 ++ l2 ∧
     Int (id t) = i ∧ ∀ t', t' ∈ l1 → Int (id t') ≠ i) ∧
  sublist (tasks (remove i st).2) (tasks st) ∧
  (length (tasks st) ≤ length (tasks (remove i st).2) + 1)%nat ∧
  (sorted_by_id (tasks st) → sorted_by_id (tasks (remove i st).2)).
Proof.
  pose proof (remove_sublist i st) as Hsub.
  repeat split; [| done | | by apply sorted_by_id_sublist].
  - destruct (remove_cases i st)
      as [[_ ->] | (l1 & t & l2 & Htasks & Hall & -> & ->)]; [by left |].
    right. exists l1, t, l2. repeat split; [done |].
    by apply other_id_all.
  - destruct (remove_cases i st)
      as [[_ ->] | (l1 & t & l2 & -> & _ & _ & ->)]; simpl; [lia |].
    rewrite !length_app. simpl. lia.
Qed.

Lemma remove_keeps_order_witness :
  sorted_by_id
    (tasks (remove (Int 2)
              (run [Create (VStr "a"); Create (VStr "b"); Create (VStr "c")]
                 initial).2).2).
Proof.
  apply remove_keeps_order. unfold sorted_by_id. simpl.
  repeat constructor; lia.
Defined.

End repository_claims.

(** ** Ids handed out along a run *)

Section id_assignment.

Import Repository.

Implicit Types (st : store) (t : task) (o : op) (ops : list op) (d : value).

Lemma reset_elem_of_dec ops : Reset ∈ ops ∨ Reset ∉ ops.
Proof.
  induction ops as [|o ops [IH | IH]].
  - right. by intros ?%elem_of_nil.
  - left. by right.
  - destruct o; try (left; by left);
      right; intros [?|?]%elem_of_cons; done.
Qed.

(** Without [reset] the counter never decreases, and the ids handed out lie
    between its first and its last value, each above the one before. *)
Lemma run_without_reset ops st :
  Reset ∉ ops →
  nextId st ≤ nextId (run ops st).2 ∧
  Forall (λ z, nextId st ≤ z < nextId (run ops st).2)
    (created_ids (run ops st).1) ∧
  StronglySorted Z.lt (created_ids (run ops st).1).
Proof.
  revert st. induction ops as [|o ops IH]; intros st Hno; simpl.
  - repeat split; [lia | constructor | constructor].
  - apply not_elem_of_cons in Hno as [Ho Hno].
    destruct o as [|d|i|]; simpl; [| | | done].
    + specialize (IH st Hno). by destruct (run ops st).
    + specialize (IH (Store (tasks st ++ [Task (nextId st) d]) (nextId st + 1)) Hno).
      destruct (run ops _) as [answers st']. simpl in *.
      destruct IH as (Hle & Hall & Hsorted).
      repeat split; [lia | |].
      * constructor; [lia |]. eapply Forall_impl; [exact Hall |].
        intros z Hz. simpl in Hz. lia.
      * constructor; [done |]. eapply Forall_impl; [exact Hall |].
        intros z Hz. simpl in Hz. lia.
    + assert (Hnext : nextId (remove i st).2 = nextId st).
      { destruct (remove_cases i st) as [[_ ->] | (? & ? & ? & _ & _ & _ & ->)]; done. }
      specialize (IH (remove i st).2 Hno).
      destruct (remove i st) as [b st1]. simpl in *.
      destruct (run ops st1) as [answers st']. simpl in *.
      by rewrite Hnext in IH.
Qed.

Lemma StronglySorted_lt_NoDup (l : list Z) : StronglySorted Z.lt l → NoDup l.
Proof.
  induction 1 as [|z l _ IH Hall]; [apply NoDup_nil_2 |].
  apply NoDup_cons. split; [| done].
  intros Hin. rewrite Forall_forall in Hall. specialize (Hall z Hin). lia.
Qed.

Lemma filter_none {A} (P : A → Prop) `{!∀ x, Decision (P x)} (l : list A) :
  Forall (λ x, ¬ P x) l → filter P l = [].
Proof. induction 1; [done |]. by rewrite filter_cons_False. Qed.

Lemma count_description_snoc d (l : list task) t :
  count_description d (l ++ [t]) =
    (count_description d l + (if value_eqb (description t) d then 1 else 0))%nat.
Proof.
  unfold count_description. rewrite filter_app, length_app. f_equal.
  destruct (value_eqb (description t) d) eqn:E.
  - by rewrite filter_cons_True.
  - rewrite filter_cons_False; [done | congruence].
Qed.

(** C1. Along every sequence of calls without [reset], the ids returned by
    [create] are strictly increasing (each later id is greater than every
    earlier one) and pairwise distinct; no id is handed out again after
    [remove] has deleted its task. *)
Theorem create_ids_strictly_increasing st ops :
  reachable st → Reset ∉ ops →
  StronglySorted Z.lt (created_ids (run ops st).1) ∧
  NoDup (created_ids (run ops st).1) ∧
  (∀ z, z ∈ created_ids (run ops st).1 → nextId st ≤ z ∧ z ∉ ids st) ∧
  (∀ ops1 z ops2, ops = ops1 ++ Remove (Int z) :: ops2 →
     (remove (Int z) (run ops1 st).2).1 = true →
     z ∉ created_ids (run ops2 (remove (Int z) (run ops1 st).2).2).1).
Proof.
  intros Hreach Hno.
  destruct (run_without_reset ops st Hno) as (_ & Hall & Hsorted).
  repeat split; [done | by apply StronglySorted_lt_NoDup | | | ].
  - rewrite Forall_forall in Hall. by apply Hall.
  - rewrite Forall_forall in Hall. specialize (Hall z H) as [Hz _].
    apply reachable_invariant in Hreach as [Hlt _].
    intros (t & -> & Ht)%list_elem_of_fmap.
    rewrite Forall_forall in Hlt. specialize (Hlt t Ht). lia.
  - intros ops1 z ops2 -> Hremoved Hin.
    assert (Hno1 : Reset ∉ ops1) by (intros ?; apply Hno, elem_of_app; by left).
    assert (Hno2 : Reset ∉ ops2)
      by (intros ?; apply Hno, elem_of_app; right; by right).
    set (st1 := (run ops1 st).2) in *.
    assert (Hinv : id_invariant st1)
      by (by apply reachable_invariant, reachable_run).
    destruct (remove_cases (Int z) st1)
      as [[_ Heq] | (l1 & t & l2 & Htasks & _ & [= ->] & Heq)];
      rewrite Heq in *; [done |].
    destruct (run_without_reset ops2 (Store (l1 ++ l2) (nextId st1)) Hno2)
      as (_ & Hall2 & _).
    rewrite Forall_forall in Hall2. specialize (Hall2 _ Hin). simpl in Hall2.
    destruct Hinv as [Hlt _]. rewrite Htasks, Forall_app, Forall_cons in Hlt.
    destruct Hlt as (_ & Ht & _). lia.
Qed.

Lemma create_ids_strictly_increasing_witness :
  StronglySorted Z.lt
    (created_ids
       (run [Create (VStr "a"); Remove (Int 1); Create (VStr "b"); GetAll;
             Create (VStr "c")] initial).1).
Proof.
  apply create_ids_strictly_increasing.
  - by exists [].
  - intros Hin. repeat (apply elem_of_cons in Hin as [Hin | Hin]; [discriminate |]).
    by apply elem_of_nil in Hin.
Defined.

(** C6. From every state, [reset] leaves the store empty ([getAll] returns
    the empty sequence) and the counter at 1, so that the next [create]
    returns id 1; and whenever a [create] returns an id that is not above
    the id of an earlier [create], a [reset] was called in between: no other
    operation makes an id come back. *)
Theorem reset_restarts_ids st d :
  (getAll (reset st).2).1 = [] ∧
  nextId (reset st).2 = 1 ∧
  id (create d (reset st).2).1 = 1 ∧
  (∀ d1 ops d2,
     id (create d2 (run ops (create d1 st).2).2).1 ≤ id (create d1 st).1 →
     Reset ∈ ops).
Proof.
  repeat split. intros d1 ops d2 Hle.
  destruct (reset_elem_of_dec ops) as [Hin | Hno]; [done |].
  destruct (run_without_reset ops (create d1 st).2 Hno) as (Hmono & _ & _).
  simpl in *. lia.
Qed.

Lemma reset_restarts_ids_witness :
  Reset ∈ [Remove (Int 1); Reset; GetAll].
Proof.
  apply (proj2 (proj2 (proj2 (reset_restarts_ids initial (VStr "a"))))
           (VStr "b") [Remove (Int 1); Reset; GetAll] (VStr "c")).
  vm_compute. discriminate.
Defined.

(** C7, as the code has it. In every state of the store and for every
    description [d], [create d] followed immediately by [getAll] yields the
    stored sequence followed by the one new task, whose description is [d]
    and whose id is the one [create] returned: the sequence holds exactly
    one more task with description [d] than before the call, and exactly one
    task with the returned id. *)
Theorem create_then_getAll st d :
  reachable st →
  (getAll (create d st).2).1 = (getAll st).1 ++ [(create d st).1] ∧
  description (create d st).1 = d ∧
  count_description d (getAll (create d st).2).1
    = S (count_description d (getAll st).1) ∧
  filter (λ t, id t = id (create d st).1) (getAll (create d st).2).1
    = [(create d st).1].
Proof.
  intros [Hlt _]%reachable_invariant. simpl. repeat split.
  - rewrite count_description_snoc. simpl. rewrite value_eqb_refl. lia.
  - rewrite filter_app, filter_cons_True, filter_nil by done.
    rewrite filter_none; [done |].
    eapply Forall_impl; [exact Hlt |]. intros t Ht. simpl in *. lia.
Qed.

Lemma create_then_getAll_witness :
  count_description (VStr "buy milk")
    (getAll (create (VStr "buy milk") initial).2).1 = 1%nat.
Proof.
  apply (create_then_getAll initial (VStr "buy milk")). by exists [].
Defined.

(** C7 as worded fails: a store that already holds a task with description
    [d] holds two of them after [create d]. *)
Lemma create_same_description_twice :
  reachable (create (VStr "buy milk") initial).2 ∧
  count_description (VStr "buy milk")
    (getAll (create (VStr "buy milk")
               (create (VStr "buy milk") initial).2).2).1 = 2%nat.
Proof.
  split; [by exists [Create (VStr "buy milk")] | reflexivity].
Qed.

End id_assignment.

(** ** The repository on the heap *)

Section heap_facts.

Import Repository.

Abbreviation memory := RepositoryHeap.memory.
Abbreviation Memory := RepositoryHeap.Memory.
Abbreviation heap := RepositoryHeap.heap.
Abbreviation abstract := RepositoryHeap.abstract.

Implicit Types (m : memory) (st : store) (h : gmap positive (list task))
  (arr : list task).

Lemma alloc_fresh arr h :
  h !! (RepositoryHeap.alloc arr h).1 = None ∧
  (RepositoryHeap.alloc arr h).2 = <[(RepositoryHeap.alloc arr h).1 := arr]> h.
Proof.
  unfold RepositoryHeap.alloc. simpl. split; [| done].
  apply not_elem_of_dom, is_fresh.
Qed.

Lemma abstract_Some m st :
  abstract m = Some st ↔
  heap m !! RepositoryHeap.tasks m = Some (tasks st) ∧
  RepositoryHeap.nextId m = nextId st.
Proof.
  unfold abstract. destruct st as [l n].
  destruct (heap m !! RepositoryHeap.tasks m) as [arr|]; simpl.
  - split; [by intros [= -> ->] | by intros [[= ->] ->]].
  - split; [done | by intros [? _]].
Qed.

Lemma abstract_initial : abstract RepositoryHeap.initial = Some initial.
Proof. apply abstract_Some. split; [apply lookup_insert_eq | done]. Qed.

(** Each operation on the heap does what the operation on stores does. *)
Lemma create_simulation d m st :
  abstract m = Some st →
  ∃ m', RepositoryHeap.create d m = Some ((create d st).1, m') ∧
        abstract m' = Some (create d st).2.
Proof.
  intros [Harr Hnext]%abstract_Some. unfold RepositoryHeap.create.
  rewrite Harr, Hnext. simpl. eexists. split; [done |].
  apply abstract_Some. simpl. by rewrite lookup_insert_eq.
Qed.

Lemma remove_simulation i m st :
  abstract m = Some st →
  ∃ m', RepositoryHeap.remove i m = Some ((remove i st).1, m') ∧
        abstract m' = Some (remove i st).2.
Proof.
  intros Habs. pose proof Habs as [Harr Hnext]%abstract_Some.
  unfold RepositoryHeap.remove, remove. rewrite Harr. simpl.
  destruct (findIndex _ (tasks st) =? -1); simpl.
  - by exists m.
  - eexists. split; [done |].
    apply abstract_Some. simpl. by rewrite lookup_insert_eq.
Qed.

Lemma reset_simulation m st :
  abstract (RepositoryHeap.reset m).2 = Some (reset st).2.
Proof.
  unfold RepositoryHeap.reset.
  destruct (alloc_fresh [] (heap m)) as [_ Heq].
  destruct (RepositoryHeap.alloc [] (heap m)) as [l h]. simpl in *. subst h.
  apply abstract_Some. simpl. by rewrite lookup_insert_eq.
Qed.

Lemma getAll_allocates m st :
  abstract m = Some st →
  heap m !! fresh (dom (heap m)) = None ∧
  RepositoryHeap.getAll m =
    Some (fresh (dom (heap m)),
          Memory (<[fresh (dom (heap m)) := tasks st]> (heap m))
                 (RepositoryHeap.tasks m) (RepositoryHeap.nextId m)).
Proof.
  intros [Harr _]%abstract_Some. split.
  - apply not_elem_of_dom, is_fresh.
  - unfold RepositoryHeap.getAll. by rewrite Harr.
Qed.

Lemma step_simulation o m st :
  abstract m = Some st →
  ∃ m', RepositoryHeap.step o m = Some m' ∧ abstract m' = Some (step o st).2.
Proof.
  intros Habs. destruct o as [|d|i|]; simpl.
  - destruct (getAll_allocates m st Habs) as [Hfresh ->]. simpl.
    eexists. split; [done |].
    pose proof Habs as [Harr Hnext]%abstract_Some.
    apply abstract_Some. simpl. split; [| done].
    rewrite lookup_insert_ne; [done |]. intros Heq. congruence.
  - destruct (create_simulation d m st Habs) as (m' & -> & Hm'). by exists m'.
  - destruct (remove_simulation i m st Habs) as (m' & -> & Hm').
    exists m'. split; [done |]. by destruct (remove i st).
  - eexists. split; [done |]. apply (reset_simulation m st).
Qed.

(** Runs on the heap never fail and follow the runs on stores. *)
Lemma run_simulation ops m st :
  abstract m = Some st →
  ∃ m', RepositoryHeap.run ops m = Some m' ∧ abstract m' = Some (run ops st).2.
Proof.
  revert m st. induction ops as [|o ops IH]; intros m st Habs; simpl.
  - by exists m.
  - destruct (step_simulation o m st Habs) as (m1 & -> & Habs1). simpl.
    destruct (IH m1 _ Habs1) as (m' & -> & Habs').
    exists m'. split; [done |].
    destruct (step o st) as [a st1]. simpl in *.
    by destruct (run ops st1).
Qed.

Lemma heap_run_reachable ops :
  ∃ m st, RepositoryHeap.run ops RepositoryHeap.initial = Some m ∧
          abstract m = Some st ∧ reachable st.
Proof.
  destruct (run_simulation ops _ _ abstract_initial) as (m & Hrun & Habs).
  exists m, (run ops initial).2. repeat split; [done | done | by exists ops].
Qed.

(** C8. In every state of the store, [getAll] succeeds and returns a newly
    allocated array, distinct from the array of the store, that holds all
    the stored tasks in insertion order; the store (its array, the binding
    of [tasks] and the counter [nextId]) is left as it was, and later writes
    to the returned array do not reach it. *)
Theorem getAll_returns_fresh_copy m st :
  abstract m = Some st → reachable st →
  ∃ l m',
    RepositoryHeap.getAll m = Some (l, m') ∧
    heap m' !! l = Some (getAll st).1 ∧
    (getAll st).1 = tasks st ∧ sorted_by_id (getAll st).1 ∧
    l ≠ RepositoryHeap.tasks m ∧ heap m !! l = None ∧
    RepositoryHeap.tasks m' = RepositoryHeap.tasks m ∧
    RepositoryHeap.nextId m' = RepositoryHeap.nextId m ∧
    (∀ l', l' ≠ l → heap m' !! l' = heap m !! l') ∧
    abstract m' = Some st ∧ (getAll st).2 = st ∧
    (∀ arr, abstract (Memory (<[l := arr]> (heap m'))
                        (RepositoryHeap.tasks m') (RepositoryHeap.nextId m'))
            = Some st).
Proof.
  intros Habs Hreach. pose proof Habs as [Harr Hnext]%abstract_Some.
  destruct (getAll_allocates m st Habs) as [Hfresh ->].
  set (l := fresh (dom (heap m))) in *.
  assert (Hne : l ≠ RepositoryHeap.tasks m).
  { intros ->. congruence. }
  exists l, (Memory (<[l := tasks st]> (heap m)) (RepositoryHeap.tasks m)
               (RepositoryHeap.nextId m)).
  simpl. repeat split; try done.
  - apply lookup_insert_eq.
  - by apply reachable_sorted.
  - intros l' Hl'. by apply lookup_insert_ne.
  - apply abstract_Some. simpl. by rewrite lookup_insert_ne.
  - intros arr. apply abstract_Some. simpl. by rewrite !lookup_insert_ne.
Qed.

Lemma getAll_returns_fresh_copy_witness :
  ∃ l m',
    RepositoryHeap.getAll RepositoryHeap.initial = Some (l, m') ∧
    l ≠ RepositoryHeap.tasks RepositoryHeap.initial ∧
    abstract m' = Some initial.
Proof.
  destruct (getAll_returns_fresh_copy RepositoryHeap.initial initial)
    as (l & m' & Hget & _ & _ & _ & Hne & _ & _ & _ & _ & Habs & _).
  - apply abstract_initial.
  - by exists [].
  - by exists l, m'.
Defined.

End heap_facts.

(** ** The router *)

Section router_facts.

Import Repository Router.

Context `{Platform}.

Implicit Types (req : request) (w : world) (r : response) (st : store).

Lemma auth_passes req w :
  authenticated req → auth req w = (Normal Next, logged w [EvAuth]).
Proof.
  intros (token & Htoken & Hne & Hverify). unfold auth. rewrite Htoken.
  simpl. apply String.eqb_neq in Hne. rewrite Hne. simpl.
  by rewrite Hverify.
Qed.

Lemma auth_rejects req w :
  ¬ authenticated req →
  ∃ r, auth req w = (Normal (Sent r), logged w [EvAuth]) ∧ status r = 401.
Proof.
  intros Hno. unfold auth.
  destruct (authorization req) as [token|] eqn:Htoken; simpl; [| by eexists].
  destruct (String.eqb_spec token "") as [-> | Hne]; simpl; [by eexists |].
  destruct (jwt_verify token) eqn:Hverify; [| by eexists].
  destruct Hno. by exists token.
Qed.

Lemma protected_passes (handler : request → M response) req w :
  authenticated req →
  protected handler req w = handler req (logged w [EvAuth]).
Proof.
  intros Hauth. unfold protected, mbind, M_bind. by rewrite auth_passes.
Qed.

Lemma protected_rejects (handler : request → M response) req w :
  ¬ authenticated req →
  ∃ r, protected handler req w = (Normal r, logged w [EvAuth]) ∧ status r = 401.
Proof.
  intros Hno. destruct (auth_rejects req w Hno) as (r & Hauth & Hstatus).
  exists r. unfold protected, mbind, M_bind. by rewrite Hauth.
Qed.

#[local] Ltac ends_early :=
  left; eexists; split; [reflexivity | simpl; auto].

(** The three ways [post_create] ends: an error forwarded to the error
    handler, a rejection, or a task created from a description that passed
    both checks. *)
Lemma post_create_cases req w :
  (∃ r, post_create req w = (Normal r, logged w [EvValidate]) ∧
        (status r = 500 ∨ status r = 400)) ∨
  (∃ task d, get (body req) "task" = Normal task ∧ truthy task = true ∧
     get task "description" = Normal d ∧ truthy d = true ∧
     post_create req w =
       (Normal (Response 201 (Json (task_json (create d (repo w)).1))),
        World (create d (repo w)).2
              (log w ++ [EvValidate; EvRepository (Create d)]))).
Proof.
  unfold post_create, try_catch, mbind, M_bind, lift, emit. simpl.
  destruct (get (body req) "task") as [task | []] eqn:Hbody; [| ends_early].
  destruct (truthy task) eqn:Htask; [| ends_early].
  destruct (get task "description") as [d | []] eqn:Hd; simpl; [| ends_early].
  destruct (truthy d) eqn:Htruthy; simpl; [| ends_early].
  destruct (get d "length") as [len | []] eqn:Hlen; simpl; [| ends_early].
  destruct (less_than len 3); simpl; [ends_early |].
  right. exists task, d. repeat split; try done.
  unfold todoRepo_create, call, on_store, mbind, M_bind, emit. simpl.
  by rewrite <- app_assoc.
Qed.

(** C2, as the code has it. For every [POST /create] request that passes
    authentication, has a body, and whose task description, when it is
    truthy, is a string: if the body has no task object, or the task has no
    description, or the description is shorter than 3 characters, the
    response is 400 with an [error] message and the repository is not
    called (store and counter unchanged); otherwise the response is 201
    with the created task and its assigned id.  So a 201 is returned only
    for a description of at least 3 characters. *)
Theorem post_create_validates req w task :
  authenticated req →
  get (body req) "task" = Normal task →
  (∀ d, get task "description" = Normal d → truthy d = true → ∃ s, d = VStr s) →
  match valid_description task with
  | Some d =>
      route_post_create req w =
        (Normal (Response 201
                   (Json (VObj [("id", VNum (Int (nextId (repo w))));
                                ("description", d)]))),
         World (create d (repo w)).2
               (log w ++ [EvAuth; EvValidate; EvRepository (Create d)]))
  | None =>
      ∃ msg,
        route_post_create req w =
          (Normal (Response 400 (Json (VObj [("error", VStr msg)]))),
           logged w [EvAuth; EvValidate])
  end.
Proof.
  intros Hauth Hget Htyped. unfold route_post_create.
  rewrite protected_passes by done.
  unfold post_create, try_catch, mbind, M_bind, lift, emit, logged. simpl.
  rewrite Hget, <- !app_assoc. simpl.
  destruct task as [| |[]|[|z]|s|items|props]; simpl in *; try by eexists.
  - destruct (z =? 0); simpl; by eexists.
  - destruct (String.eqb s ""); simpl; by eexists.
  - destruct (own_property props "description") as [| |[]|[|z]|s|items|props'] eqn:Hd;
      simpl in *; try (by eexists);
      try (by destruct (Htyped _ eq_refl eq_refl) as [? [=]]).
    + destruct (Z.eqb_spec z 0) as [-> | Hz]; simpl; [by eexists |].
      destruct (Htyped _ eq_refl) as [? [=]]. by apply negb_true_iff, Z.eqb_neq.
    + destruct (String.eqb_spec s "") as [-> | Hs]; simpl; [by eexists |].
      destruct (Z.leb_spec 3 (Z.of_nat (String.length s))),
        (Z.ltb_spec (Z.of_nat (String.length s)) 3); simpl; try lia;
        [| by eexists].
      unfold todoRepo_create, call, on_store, mbind, M_bind, emit. simpl.
      by rewrite <- app_assoc.
Qed.

(** [delete_id] always calls the repository, with whatever [parseInt] made
    of the path segment. *)
Lemma delete_id_run req w :
  delete_id req w =
    (Normal (if (remove (parseInt (params_id req)) (repo w)).1
             then Response 204 Empty
             else Response 404 (Json (VObj [("error", VStr "Task not found")]))),
     World (remove (parseInt (params_id req)) (repo w)).2
           (log w ++ [EvValidate; EvRepository (Remove (parseInt (params_id req)))])).
Proof.
  unfold delete_id, try_catch, todoRepo_remove, call, on_store, mbind, M_bind,
    emit. simpl.
  destruct (remove _ (repo w)) as [[] st']; simpl; by rewrite <- app_assoc.
Qed.

Lemma remove_NaN st : remove NaN st = (false, st).
Proof.
  destruct (remove_cases NaN st) as [[_ ->] | (? & ? & ? & _ & _ & [=] & _)].
  done.
Qed.

Lemma has_digit_trimStart (s : string) :
  has_digit s = false → has_digit (trimStart s) = false.
Proof.
  induction s as [|c s IH]; simpl; [done |].
  intros [Hc Hs]%orb_false_elim.
  destruct (isWhiteSpace c); [by apply IH |].
  simpl. by rewrite Hc, Hs.
Qed.

Lemma digits_without_digit (s : string) :
  has_digit s = false → digits s None = None.
Proof.
  destruct s as [|c s]; simpl; [done |].
  intros [Hc _]%orb_false_elim.
  destruct (digit c); [| done].
  by apply bool_decide_eq_false in Hc as [].
Qed.

Lemma parseInt_without_digit (s : string) :
  has_digit s = false → parseInt s = NaN.
Proof.
  intros Hs%has_digit_trimStart. unfold parseInt.
  destruct (trimStart s) as [|c rest] eqn:Htrim.
  - done.
  - pose proof Hs as [_ Hrest]%orb_false_elim.
    destruct (Ascii.eqb c "-"); [by rewrite digits_without_digit |].
    destruct (Ascii.eqb c "+"); by rewrite digits_without_digit.
Qed.

(** C3, as the code has it. For every [DELETE /:id] request that passes
    authentication, no parse error or crash occurs: the response is 204 or
    404.  When [parseInt] makes [NaN] of the path segment (after leading
    white space and an optional sign it does not start with a decimal
    digit; in particular when it holds no digit at all), the response is
    404 with an error body and the store is unchanged. *)
Theorem delete_unparsable_id req w :
  authenticated req →
  (∃ r w', route_delete req w = (Normal r, w') ∧
     (r = Response 204 Empty ∨
      r = Response 404 (Json (VObj [("error", VStr "Task not found")])))) ∧
  (parseInt (params_id req) = NaN →
     route_delete req w =
       (Normal (Response 404 (Json (VObj [("error", VStr "Task not found")]))),
        logged w [EvAuth; EvValidate; EvRepository (Remove NaN)])) ∧
  (has_digit (params_id req) = false → parseInt (params_id req) = NaN).
Proof.
  intros Hauth. unfold route_delete.
  rewrite protected_passes, delete_id_run by done.
  repeat split.
  - do 2 eexists. split; [done |].
    destruct (remove _ _).1; auto.
  - intros ->. rewrite remove_NaN. unfold logged. simpl.
    by rewrite <- app_assoc.
  - apply parseInt_without_digit.
Qed.

#[local] Ltac stages :=
  repeat split;
  [ repeat constructor
  | intros ? Hin; repeat (apply elem_of_cons in Hin as [Hin | Hin];
                          [try discriminate Hin |]);
    try (by apply elem_of_nil in Hin);
    try (apply elem_of_cons; right; by left)
  | intros _; by left ].

Lemma staged_auth : staged [EvAuth].
Proof. stages. Qed.

Lemma staged_validate : staged [EvAuth; EvValidate].
Proof. stages. Qed.

Lemma staged_repository o : staged [EvAuth; EvValidate; EvRepository o].
Proof. stages. Qed.

(** The stages a request to a protected route goes through. *)
Lemma stages_of_protected_route (route : request → M response) req w :
  route = route_post_create ∨ route = route_delete →
  ∃ r w' evs,
    route req w = (Normal r, w') ∧
    log w' = log w ++ evs ∧ head evs = Some EvAuth ∧ staged evs ∧
    (¬ authenticated req →
       status r = 401 ∧ evs = [EvAuth] ∧ repo w' = repo w) ∧
    (authenticated req → status r ≠ 401 ∧ EvValidate ∈ evs) ∧
    (repo w' ≠ repo w →
       authenticated req ∧ ∃ o, evs = [EvAuth; EvValidate; EvRepository o]).
Proof.
  intros Hroute.
  assert (Hdec : authenticated req ∨ ¬ authenticated req).
  { unfold authenticated. destruct (authorization req) as [token|].
    - destruct (String.eqb_spec token "") as [-> | Hne].
      + right. by intros (? & [= <-] & ? & _).
      + destruct (jwt_verify token) eqn:Hverify.
        * left. by exists token.
        * right. intros (? & [= <-] & _ & ?). congruence.
    - right. by intros (? & ? & _). }
  destruct Hdec as [Hauth | Hno].
  - destruct Hroute as [-> | ->].
    + unfold route_post_create. rewrite protected_passes by done.
      destruct (post_create_cases req (logged w [EvAuth]))
        as [(r & -> & Hstatus) | (task & d & _ & _ & _ & _ & ->)].
      * exists r, (logged (logged w [EvAuth]) [EvValidate]), [EvAuth; EvValidate].
        simpl. rewrite <- app_assoc.
        repeat split; try done; try apply staged_validate.
        -- destruct Hstatus as [-> | ->]; discriminate.
        -- right. by left.
      * do 2 eexists. exists [EvAuth; EvValidate; EvRepository (Create d)].
        split; [done |]. simpl. rewrite <- app_assoc.
        repeat split; try done; try apply staged_repository.
        -- right. by left.
        -- by eexists.
    + unfold route_delete. rewrite protected_passes, delete_id_run by done.
      do 2 eexists.
      exists [EvAuth; EvValidate; EvRepository (Remove (parseInt (params_id req)))].
      split; [done |]. simpl. rewrite <- app_assoc.
      repeat split; try done; try apply staged_repository.
      -- destruct (remove _ _).1; discriminate.
      -- right. by left.
      -- by eexists.
  - assert (Hrejected : ∃ r, route req w = (Normal r, logged w [EvAuth]) ∧
                             status r = 401).
    { destruct Hroute as [-> | ->]; by apply protected_rejects. }
    destruct Hrejected as (r & -> & Hstatus).
    exists r, (logged w [EvAuth]), [EvAuth].
    repeat split; try done; try apply staged_auth.
Qed.

(** [post_create] calls the repository only after both checks have let the
    description through, and with that description. *)
Lemma post_create_checked req w :
  (∃ r, post_create req w = (Normal r, logged w [EvValidate])) ∨
  (∃ d, passes_validation req d ∧
     post_create req w =
       (Normal (Response 201 (Json (task_json (create d (repo w)).1))),
        World (create d (repo w)).2
              (log w ++ [EvValidate; EvRepository (Create d)]))).
Proof.
  unfold post_create, try_catch, mbind, M_bind, lift, emit. simpl.
  destruct (get (body req) "task") as [task | []] eqn:Hbody;
    [| left; by eexists].
  destruct (truthy task) eqn:Htask; [| left; by eexists].
  destruct (get task "description") as [d | []] eqn:Hd; simpl;
    [| left; by eexists].
  destruct (truthy d) eqn:Htruthy; simpl; [| left; by eexists].
  destruct (get d "length") as [len | []] eqn:Hlen; simpl;
    [| left; by eexists].
  destruct (less_than len 3) eqn:Hshort; simpl; [left; by eexists |].
  right. exists d. split; [by exists task, len |].
  unfold todoRepo_create, call, on_store, mbind, M_bind, emit. simpl.
  by rewrite <- app_assoc.
Qed.

(** What a request to a protected route calls in the repository. *)
Lemma calls_of_protected_route (route : request → M response) req w :
  route = route_post_create ∨ route = route_delete →
  ∃ r st' evs,
    route req w = (Normal r, World st' (log w ++ evs)) ∧
    (((∀ o, EvRepository o ∉ evs) ∧ st' = repo w) ∨
     (route = route_post_create ∧ ∃ d,
        authenticated req ∧ passes_validation req d ∧
        evs = [EvAuth; EvValidate; EvRepository (Create d)] ∧
        status r = 201 ∧ st' = (create d (repo w)).2) ∨
     (route = route_delete ∧
        authenticated req ∧
        evs = [EvAuth; EvValidate;
               EvRepository (Remove (parseInt (params_id req)))] ∧
        st' = (remove (parseInt (params_id req)) (repo w)).2)).
Proof.
  intros Hroute.
  assert (Hnone : ∀ evs, Forall (λ ev, ∀ o, ev ≠ EvRepository o) evs →
                         ∀ o, EvRepository o ∉ evs).
  { intros evs Hall o Hin. rewrite Forall_forall in Hall.
    by apply (Hall _ Hin o). }
  assert (Hdec : authenticated req ∨ ¬ authenticated req).
  { unfold authenticated. destruct (authorization req) as [token|].
    - destruct (String.eqb_spec token "") as [-> | Hne].
      + right. by intros (? & [= <-] & ? & _).
      + destruct (jwt_verify token) eqn:Hverify.
        * left. by exists token.
        * right. intros (? & [= <-] & _ & ?). congruence.
    - right. by intros (? & ? & _). }
  destruct Hdec as [Hauth | Hno].
  - destruct Hroute as [-> | ->].
    + unfold route_post_create. rewrite protected_passes by done.
      destruct (post_create_checked req (logged w [EvAuth]))
        as [(r & ->) | (d & Hpasses & ->)].
      * exists r, (repo w), [EvAuth; EvValidate]. unfold logged. simpl.
        rewrite <- app_assoc. split; [done |].
        left. split; [| done]. apply Hnone. by repeat constructor.
      * do 2 eexists. exists [EvAuth; EvValidate; EvRepository (Create d)].
        simpl. rewrite <- app_assoc. split; [done |].
        right. left. split; [done |]. by exists d.
    + unfold route_delete. rewrite protected_passes, delete_id_run by done.
      do 2 eexists.
      exists [EvAuth; EvValidate; EvRepository (Remove (parseInt (params_id req)))].
      simpl. rewrite <- app_assoc. split; [done |].
      right. right. done.
  - assert (Hrejected : ∃ r, route req w = (Normal r, logged w [EvAuth]) ∧
                             status r = 401).
    { destruct Hroute as [-> | ->]; by apply protected_rejects. }
    destruct Hrejected as (r & -> & _).
    exists r, (repo w), [EvAuth]. split; [done |].
    left. split; [| done]. apply Hnone. by repeat constructor.
Qed.

(** C4. For every request to a route behind the authentication gate
    ([POST /create], [DELETE /:id]), the authentication check runs strictly
    before the validation of the input, which runs strictly before any call
    of the repository; a request that fails authentication is answered 401
    without reaching validation or the repository, and leaves the store and
    the counter as they were.  The repository is called only by a request
    that passed authentication and, for [POST /create], only once both
    checks of the body have let the description through: then [create] is
    called once, with that description, and the answer is 201; a request
    that calls nothing leaves the store as it was. *)
Theorem auth_precedes_validation (route : request → M response) req w :
  route = route_post_create ∨ route = route_delete →
  ∃ r w' evs,
    route req w = (Normal r, w') ∧
    log w' = log w ++ evs ∧ head evs = Some EvAuth ∧ staged evs ∧
    (¬ authenticated req →
       status r = 401 ∧ evs = [EvAuth] ∧ repo w' = repo w) ∧
    (authenticated req → status r ≠ 401 ∧ EvValidate ∈ evs) ∧
    (repo w' ≠ repo w →
       authenticated req ∧ ∃ o, evs = [EvAuth; EvValidate; EvRepository o]) ∧
    (((∀ o, EvRepository o ∉ evs) ∧ repo w' = repo w) ∨
     (route = route_post_create ∧ ∃ d,
        authenticated req ∧ passes_validation req d ∧
        evs = [EvAuth; EvValidate; EvRepository (Create d)] ∧
        status r = 201 ∧ repo w' = (create d (repo w)).2) ∨
     (route = route_delete ∧
        authenticated req ∧
        evs = [EvAuth; EvValidate;
               EvRepository (Remove (parseInt (params_id req)))] ∧
        repo w' = (remove (parseInt (params_id req)) (repo w)).2)).
Proof.
  intros Hroute.
  destruct (stages_of_protected_route route req w Hroute)
    as (r & w' & evs & Hrun & Hlog & Hhead & Hstaged & Hrej & Hacc & Hchanged).
  destruct (calls_of_protected_route route req w Hroute)
    as (r2 & st' & evs2 & Hrun2 & Hcalls).
  rewrite Hrun in Hrun2. injection Hrun2 as -> ->. simpl in Hlog.
  apply app_inv_head in Hlog as ->.
  exists r2, (World st' (log w ++ evs)), evs.
  split; [exact Hrun |]. split; [done |]. split; [done |]. split; [done |].
  split; [exact Hrej |]. split; [exact Hacc |]. split; [exact Hchanged |].
  exact Hcalls.
Qed.

End router_facts.

(** ** Concrete requests *)

Section concrete_requests.

Import Repository Router.

#[local] Existing Instance demo_platform.

Lemma post_create_validates_witness :
  (∃ msg,
     route_post_create
       (Request (Some "signed-token")
          (VObj [("task", VObj [("description", VStr "ab")])]) "")
       (World initial [])
     = (Normal (Response 400 (Json (VObj [("error", VStr msg)]))),
        World initial [EvAuth; EvValidate])).
Proof.
  apply (post_create_validates
           (Request (Some "signed-token")
              (VObj [("task", VObj [("description", VStr "ab")])]) "")
           (World initial [])
           (VObj [("description", VStr "ab")])).
  - by exists "signed-token".
  - reflexivity.
  - intros d [= <-] _. by exists "ab".
Defined.

(** C2 as worded fails: a description that is the number 123 has no length,
    passes both checks and is stored; the response is 201. *)
Lemma post_create_accepts_number :
  authenticated
    (Request (Some "signed-token")
       (VObj [("task", VObj [("description", VNum (Int 123))])]) "") ∧
  route_post_create
    (Request (Some "signed-token")
       (VObj [("task", VObj [("description", VNum (Int 123))])]) "")
    (World initial [])
  = (Normal (Response 201
               (Json (VObj [("id", VNum (Int 1));
                            ("description", VNum (Int 123))]))),
     World (Store [Task 1 (VNum (Int 123))] 2)
           [EvAuth; EvValidate; EvRepository (Create (VNum (Int 123)))]) ∧
  long_enough (VNum (Int 123)) = false.
Proof.
  split; [by exists "signed-token" | by split].
Qed.

Lemma delete_unparsable_id_witness :
  route_delete (Request (Some "signed-token") VUndefined "abc")
    (World (Store [Task 1 (VStr "buy milk")] 2) [])
  = (Normal (Response 404 (Json (VObj [("error", VStr "Task not found")]))),
     World (Store [Task 1 (VStr "buy milk")] 2)
           [EvAuth; EvValidate; EvRepository (Remove NaN)]).
Proof.
  apply (delete_unparsable_id
           (Request (Some "signed-token") VUndefined "abc")
           (World (Store [Task 1 (VStr "buy milk")] 2) [])).
  - by exists "signed-token".
  - reflexivity.
Defined.

(** C3 as worded fails: the segment [1abc] is not a numeral, yet [parseInt]
    reads it as 1, the task with id 1 is deleted and the response is 204. *)
Lemma delete_numeric_prefix :
  is_numeral "1abc" = false ∧
  reachable (Store [Task 1 (VStr "buy milk")] 2) ∧
  route_delete (Request (Some "signed-token") VUndefined "1abc")
    (World (Store [Task 1 (VStr "buy milk")] 2) [])
  = (Normal (Response 204 Empty),
     World (Store [] 2)
           [EvAuth; EvValidate; EvRepository (Remove (Int 1))]).
Proof.
  split; [done |]. split; [by exists [Create (VStr "buy milk")] | done].
Qed.

Lemma auth_precedes_validation_witness :
  ∃ r w' evs,
    route_post_create
      (Request None (VObj [("task", VObj [("description", VStr "X")])]) "")
      (World initial [])
    = (Normal r, w') ∧
    log w' = [] ++ evs ∧ status r = 401 ∧ evs = [EvAuth] ∧ repo w' = initial.
Proof.
  destruct (auth_precedes_validation route_post_create
              (Request None (VObj [("task", VObj [("description", VStr "X")])]) "")
              (World initial []))
    as (r & w' & evs & Hrun & Hlog & _ & _ & Hrejected & _).
  - by left.
  - destruct Hrejected as (Hstatus & Hevs & Hrepo).
    + by intros (token & [=] & _).
    + by exists r, w', evs.
Defined.

End concrete_requests.

(** * Further properties of the code *)

(** ** The repository: how its operations compose *)

Section repository_composition.

Import Repository.

Implicit Types (st : store) (t : task) (l : list task) (i j : number)
  (o : op) (ops : list op) (d : value) (z : Z).

Lemma filter_all {A} (P : A → Prop) `{!∀ x, Decision (P x)} (l : list A) :
  Forall P l → filter P l = l.
Proof. induction 1; [done |]. rewrite filter_cons_True by done. by f_equal. Qed.

(** On a store whose ids are distinct, [remove] answers whether the id is
    stored and keeps exactly the tasks with another id. *)
Lemma remove_filter z st :
  id_invariant st →
  remove (Int z) st =
    (bool_decide (z ∈ ids st),
     Store (filter (λ t, id t ≠ z) (tasks st)) (nextId st)).
Proof.
  intros [_ Hnd].
  destruct (remove_cases (Int z) st)
    as [[Hall ->] | (l1 & t & l2 & Htasks & Hall & [= ->] & ->)].
  - assert (Hother : Forall (λ t, id t ≠ z) (tasks st)).
    { eapply Forall_impl; [exact Hall |]. intros t. apply other_id_Int. }
    rewrite filter_all by done. destruct st as [l n]. simpl in *.
    rewrite bool_decide_eq_false_2; [done |].
    intros (t & -> & Ht)%list_elem_of_fmap.
    rewrite Forall_forall in Hother. by apply (Hother t).
  - unfold ids in *. rewrite Htasks in *. rewrite map_app in Hnd. simpl in Hnd.
    apply NoDup_app in Hnd as (_ & Hdisj & [Hnotin _]%NoDup_cons).
    rewrite bool_decide_eq_true_2
      by (rewrite map_app; apply elem_of_app; right; by left).
    f_equal. f_equal.
    rewrite filter_app, filter_cons_False by (intros Hne; by apply Hne).
    rewrite !filter_all; [done | |].
    + apply Forall_forall. intros t' Ht' Heq. apply Hnotin.
      rewrite <- Heq. by apply list_elem_of_fmap_2.
    + eapply Forall_impl; [exact Hall |]. intros t'. apply other_id_Int.
Qed.

Lemma id_invariant_removed i st :
  id_invariant st → id_invariant (remove i st).2.
Proof. apply id_invariant_remove. Qed.

(** Without [reset], the ids handed out are consecutive from the counter. *)
Lemma run_ids_consecutive ops st :
  Reset ∉ ops →
  created_ids (run ops st).1
    = seqZ (nextId st) (Z.of_nat (length (created_ids (run ops st).1))) ∧
  nextId (run ops st).2
    = nextId st + Z.of_nat (length (created_ids (run ops st).1)).
Proof.
  revert st. induction ops as [|o ops IH]; intros st Hno; simpl.
  - split; [done | lia].
  - apply not_elem_of_cons in Hno as [Ho Hno].
    destruct o as [|d|i|]; simpl; [| | | done].
    + specialize (IH st Hno). by destruct (run ops st).
    + specialize (IH (Store (tasks st ++ [Task (nextId st) d]) (nextId st + 1)) Hno).
      destruct (run ops _) as [answers st']. simpl in *.
      destruct IH as [Hids Hnext]. split; [| lia].
      rewrite seqZ_cons by lia. f_equal.
      rewrite Hids at 1. f_equal. lia.
    + assert (Hnext : nextId (remove i st).2 = nextId st).
      { destruct (remove_cases i st) as [[_ ->] | (? & ? & ? & _ & _ & _ & ->)]; done. }
      specialize (IH (remove i st).2 Hno).
      destruct (remove i st) as [b st1]. simpl in *.
      destruct (run ops st1) as [answers st']. simpl in *.
      by rewrite Hnext in IH.
Qed.

(** X1. Along a sequence of calls without [reset], the ids returned by
    [create] are consecutive integers that start at the counter, whatever
    [remove] and [getAll] calls lie between them; the counter ends advanced
    by the number of [create] calls. *)
Theorem created_ids_consecutive ops st :
  Reset ∉ ops →
  created_ids (run ops st).1
    = seqZ (nextId st) (Z.of_nat (length (created_ids (run ops st).1))) ∧
  nextId (run ops st).2
    = nextId st + Z.of_nat (length (created_ids (run ops st).1)).
Proof. apply run_ids_consecutive. Qed.

Lemma created_ids_consecutive_witness :
  created_ids
    (run [Create (VStr "a"); Remove (Int 1); Create (VStr "b"); GetAll;
          Create (VStr "c")] initial).1 = seqZ 1 3.
Proof.
  apply (created_ids_consecutive
           [Create (VStr "a"); Remove (Int 1); Create (VStr "b"); GetAll;
            Create (VStr "c")] initial).
  intros Hin. repeat (apply elem_of_cons in Hin as [Hin | Hin]; [discriminate |]).
  by apply elem_of_nil in Hin.
Defined.

(** X2. In every state of the store, removing the id that [create] has just
    returned succeeds and gives back the tasks as they were before the
    [create]; the counter stays advanced, so the id is spent. *)
Theorem create_then_remove d st :
  reachable st →
  remove (Int (id (create d st).1)) (create d st).2
    = (true, Store (tasks st) (nextId st + 1)).
Proof.
  intros Hinv%reachable_invariant.
  rewrite remove_filter by by apply id_invariant_create.
  destruct Hinv as [Hlt _]. simpl. f_equal.
  - apply bool_decide_eq_true_2. unfold ids. simpl. rewrite map_app.
    apply elem_of_app. right. by left.
  - f_equal. rewrite filter_app, filter_cons_False, filter_nil, app_nil_r
      by (simpl; intros Hne; by apply Hne).
    apply filter_all. eapply Forall_impl; [exact Hlt |].
    intros t Ht. simpl in *. lia.
Qed.

Lemma create_then_remove_witness :
  remove (Int 2) (create (VStr "b") (create (VStr "a") initial).2).2
    = (true, Store [Task 1 (VStr "a")] 3).
Proof.
  apply (create_then_remove (VStr "b") (create (VStr "a") initial).2).
  by exists [Create (VStr "a")].
Defined.

(** X3. In every state of the store, [remove] of a number answers whether
    a stored task has that id, and leaves exactly the stored tasks with
    another id, in their order, with the counter unchanged. *)
Theorem remove_is_filter z st :
  reachable st →
  remove (Int z) st =
    (bool_decide (z ∈ ids st),
     Store (filter (λ t, id t ≠ z) (tasks st)) (nextId st)).
Proof. intros Hreach. by apply remove_filter, reachable_invariant. Qed.

Lemma remove_is_filter_witness :
  remove (Int 1) (run [Create (VStr "a"); Create (VStr "b")] initial).2
    = (true, Store [Task 2 (VStr "b")] 3).
Proof.
  apply (remove_is_filter 1 (run [Create (VStr "a"); Create (VStr "b")] initial).2).
  by exists [Create (VStr "a"); Create (VStr "b")].
Defined.

Lemma remove_NaN_id st : remove NaN st = (false, st).
Proof.
  destruct (remove_cases NaN st) as [[_ ->] | (? & ? & ? & _ & _ & [=] & _)].
  done.
Qed.

(** X4. In every state of the store, two [remove] calls can be swapped: the
    store they leave is the same in either order. *)
Theorem remove_commutes i j st :
  reachable st →
  (remove j (remove i st).2).2 = (remove i (remove j st).2).2.
Proof.
  intros Hinv%reachable_invariant.
  destruct i as [|zi]; [by rewrite !remove_NaN_id |].
  destruct j as [|zj]; [by rewrite !remove_NaN_id |].
  pose proof (id_invariant_removed (Int zi) st Hinv) as Hi.
  pose proof (id_invariant_removed (Int zj) st Hinv) as Hj.
  rewrite (remove_filter zj _ Hi), (remove_filter zi _ Hj).
  rewrite !remove_filter by done. simpl. f_equal.
  rewrite !list_filter_filter. apply list_filter_iff. intros t. tauto.
Qed.

Lemma remove_commutes_witness :
  (remove (Int 2) (remove (Int 1)
     (run [Create (VStr "a"); Create (VStr "b")] initial).2).2).2
  = (remove (Int 1) (remove (Int 2)
     (run [Create (VStr "a"); Create (VStr "b")] initial).2).2).2.
Proof.
  apply remove_commutes.
  by exists [Create (VStr "a"); Create (VStr "b")].
Defined.

(** X5. In every state of the store, a second [remove] of the same id
    returns [false] and changes nothing. *)
Theorem remove_twice i st :
  reachable st →
  remove i (remove i st).2 = (false, (remove i st).2).
Proof.
  intros Hinv%reachable_invariant.
  destruct i as [|z]; [by rewrite !remove_NaN_id |].
  rewrite (remove_filter z _ (id_invariant_removed (Int z) st Hinv)).
  rewrite remove_filter by done. simpl. f_equal.
  - apply bool_decide_eq_false_2. unfold ids. simpl.
    intros (t & -> & Ht)%list_elem_of_fmap.
    by apply list_elem_of_filter in Ht as [Hne _].
  - f_equal. rewrite list_filter_filter. apply list_filter_iff. intros t. tauto.
Qed.

Lemma remove_twice_witness :
  remove (Int 1) (remove (Int 1) (create (VStr "a") initial).2).2
    = (false, Store [] 2).
Proof.
  apply (remove_twice (Int 1) (create (VStr "a") initial).2).
  by exists [Create (VStr "a")].
Defined.

End repository_composition.

(** ** The repository: what a run leaves in the store *)

Section repository_history.

Import Repository.

Implicit Types (st : store) (t : task) (o : op) (ops : list op) (d : value).

Lemma no_reset_cons o ops : Reset ∉ o :: ops → o ≠ Reset ∧ Reset ∉ ops.
Proof. intros Hno. split; [intros -> | intros Hin]; apply Hno; by constructor. Qed.

Lemma remove_length i st :
  (length (tasks (remove i st).2) + (if (remove i st).1 then 1 else 0)
   = length (tasks st))%nat.
Proof.
  destruct (remove_cases i st) as [[_ ->] | (l1 & t & l2 & -> & _ & _ & ->)];
    simpl; [lia |].
  rewrite !length_app. simpl. lia.
Qed.

(** X6. Along a sequence of calls without [reset], the store ends with a
    subsequence of the tasks it started with followed by the tasks created
    on the way, in creation order: nothing is stored that was not created,
    no stored task is altered or moved; and the created tasks carry the
    descriptions passed to [create], each as it was given. *)
Theorem store_is_subsequence_of_history ops st :
  Reset ∉ ops →
  sublist (tasks (run ops st).2) (tasks st ++ created_tasks (run ops st).1) ∧
  map description (created_tasks (run ops st).1)
    = omap (λ o, match o with Create d => Some d | _ => None end) ops ∧
  map id (created_tasks (run ops st).1) = created_ids (run ops st).1.
Proof.
  revert st. induction ops as [|o ops IH]; intros st Hno; simpl.
  - rewrite app_nil_r. done.
  - apply no_reset_cons in Hno as [Ho Hno].
    destruct o as [|d|i|]; simpl; [| | | done].
    + specialize (IH st Hno). by destruct (run ops st).
    + specialize (IH (Store (tasks st ++ [Task (nextId st) d]) (nextId st + 1)) Hno).
      destruct (run ops _) as [answers st']. simpl in *.
      destruct IH as (Hsub & Hdesc & Hids).
      rewrite <- app_assoc in Hsub. simpl in Hsub.
      repeat split; [done | by f_equal | by f_equal].
    + pose proof (remove_sublist i st) as Hrem.
      specialize (IH (remove i st).2 Hno).
      destruct (remove i st) as [b st1]. simpl in *.
      destruct (run ops st1) as [answers st']. simpl in *.
      destruct IH as (Hsub & Hdesc & Hids).
      repeat split; [| done | done].
      etransitivity; [exact Hsub |]. by apply sublist_app.
Qed.

Lemma store_is_subsequence_of_history_witness :
  sublist
    (tasks (run [Create (VStr "a"); Create (VStr "b"); Remove (Int 1)] initial).2)
    ([] ++ created_tasks
             (run [Create (VStr "a"); Create (VStr "b"); Remove (Int 1)] initial).1).
Proof.
  apply (store_is_subsequence_of_history
           [Create (VStr "a"); Create (VStr "b"); Remove (Int 1)] initial).
  intros Hin. repeat (apply elem_of_cons in Hin as [Hin | Hin]; [discriminate |]).
  by apply elem_of_nil in Hin.
Defined.

(** X7. Along a sequence of calls without [reset], the number of stored
    tasks grows by one with every [create] and shrinks by one with every
    [remove] that returns [true], and by nothing else. *)
Theorem store_size_accounting ops st :
  Reset ∉ ops →
  (length (tasks (run ops st).2) + removals (run ops st).1
   = length (tasks st) + length (created_ids (run ops st).1))%nat.
Proof.
  revert st. induction ops as [|o ops IH]; intros st Hno; simpl.
  - lia.
  - apply no_reset_cons in Hno as [Ho Hno].
    destruct o as [|d|i|]; simpl; [| | | done].
    + specialize (IH st Hno). by destruct (run ops st).
    + specialize (IH (Store (tasks st ++ [Task (nextId st) d]) (nextId st + 1)) Hno).
      destruct (run ops _) as [answers st']. simpl in *.
      rewrite length_app in IH. simpl in IH. lia.
    + pose proof (remove_length i st) as Hlen.
      specialize (IH (remove i st).2 Hno).
      destruct (remove i st) as [[] st1]; simpl in *;
        destruct (run ops st1) as [answers st']; simpl in *; lia.
Qed.

Lemma store_size_accounting_witness :
  (length (tasks (run [Create (VStr "a"); Remove (Int 1); Remove (Int 1);
                       Create (VStr "b")] initial).2)
   + removals (run [Create (VStr "a"); Remove (Int 1); Remove (Int 1);
                    Create (VStr "b")] initial).1
   = 0 + 2)%nat.
Proof.
  apply (store_size_accounting
           [Create (VStr "a"); Remove (Int 1); Remove (Int 1); Create (VStr "b")]
           initial).
  intros Hin. repeat (apply elem_of_cons in Hin as [Hin | Hin]; [discriminate |]).
  by apply elem_of_nil in Hin.
Defined.

End repository_history.

(** ** The repository on the heap: snapshots *)

Section heap_snapshots.

Import Repository.

Abbreviation memory := RepositoryHeap.memory.
Abbreviation Memory := RepositoryHeap.Memory.
Abbreviation heap := RepositoryHeap.heap.
Abbreviation abstract := RepositoryHeap.abstract.

Implicit Types (m : memory) (st : store) (l : positive) (o : op)
  (ops : list op).

(** An array that is not the one [tasks] refers to is out of the reach of
    every operation. *)
Lemma step_keeps_other_arrays o m m' l :
  is_Some (heap m !! l) → l ≠ RepositoryHeap.tasks m →
  RepositoryHeap.step o m = Some m' →
  heap m' !! l = heap m !! l ∧ l ≠ RepositoryHeap.tasks m'.
Proof.
  intros Hl Hne Hstep.
  assert (Hfresh : ∀ h : gmap positive (list task),
             is_Some (h !! l) → fresh (dom h) ≠ l).
  { intros h Hh Heq. apply elem_of_dom in Hh. rewrite <- Heq in Hh.
    by apply is_fresh in Hh. }
  destruct o as [|d|i|]; simpl in Hstep.
  - unfold RepositoryHeap.getAll in Hstep.
    destruct (heap m !! RepositoryHeap.tasks m) as [arr|]; simpl in Hstep; [| done].
    injection Hstep as <-. simpl. split; [| done].
    apply lookup_insert_ne. by apply Hfresh.
  - unfold RepositoryHeap.create in Hstep.
    destruct (heap m !! RepositoryHeap.tasks m) as [arr|]; simpl in Hstep; [| done].
    injection Hstep as <-. simpl. split; [| done].
    by apply lookup_insert_ne.
  - unfold RepositoryHeap.remove in Hstep.
    destruct (heap m !! RepositoryHeap.tasks m) as [arr|]; simpl in Hstep; [| done].
    destruct (findIndex _ arr =? -1); simpl in Hstep; injection Hstep as <-;
      [done |].
    simpl. split; [| done]. by apply lookup_insert_ne.
  - injection Hstep as <-. unfold RepositoryHeap.reset, RepositoryHeap.alloc.
    simpl. split.
    + apply lookup_insert_ne. by apply Hfresh.
    + intros Heq. by apply (Hfresh (heap m)).
Qed.

Lemma run_keeps_other_arrays ops m m' l :
  is_Some (heap m !! l) → l ≠ RepositoryHeap.tasks m →
  RepositoryHeap.run ops m = Some m' →
  heap m' !! l = heap m !! l.
Proof.
  revert m. induction ops as [|o ops IH]; intros m Hl Hne Hrun; simpl in Hrun.
  - by injection Hrun as <-.
  - destruct (RepositoryHeap.step o m) as [m1|] eqn:Hstep; simpl in Hrun; [| done].
    destruct (step_keeps_other_arrays o m m1 l Hl Hne Hstep) as [Heq Hne1].
    rewrite <- Heq. apply IH; [by rewrite Heq | done | done].
Qed.

(** X8. The array that [getAll] returned keeps its contents whatever is
    called afterwards: no later [create], [remove], [reset] or [getAll]
    writes to it. *)
Theorem snapshot_is_stable ops m m1 m2 l :
  RepositoryHeap.getAll m = Some (l, m1) →
  RepositoryHeap.run ops m1 = Some m2 →
  heap m2 !! l = heap m1 !! l ∧
  heap m1 !! l = heap m !! RepositoryHeap.tasks m.
Proof.
  unfold RepositoryHeap.getAll. intros Hget Hrun.
  destruct (heap m !! RepositoryHeap.tasks m) as [arr|] eqn:Harr;
    simpl in Hget; [| done].
  injection Hget as <- <-. simpl in *.
  assert (Hfresh : heap m !! fresh (dom (heap m)) = None)
    by apply not_elem_of_dom, is_fresh.
  split; [| by rewrite lookup_insert_eq].
  refine (run_keeps_other_arrays ops _ m2 _ _ _ Hrun); simpl.
  - rewrite lookup_insert_eq. by eexists.
  - intros Heq. rewrite Heq in Hfresh. congruence.
Qed.

Lemma snapshot_is_stable_witness :
  match RepositoryHeap.getAll RepositoryHeap.initial with
  | Some (l, m1) =>
      match RepositoryHeap.run [Create (VStr "a"); Reset; Create (VStr "b")] m1 with
      | Some m2 => heap m2 !! l = heap m1 !! l
      | None => False
      end
  | None => False
  end.
Proof.
  destruct (RepositoryHeap.getAll RepositoryHeap.initial) as [[l m1]|] eqn:Hget;
    [| by vm_compute in Hget].
  destruct (RepositoryHeap.run _ m1) as [m2|] eqn:Hrun.
  - apply (snapshot_is_stable _ RepositoryHeap.initial m1 m2 l Hget Hrun).
  - vm_compute in Hget. injection Hget as <- <-. by vm_compute in Hrun.
Defined.

(** X9. Two calls of [getAll] in a row return two different arrays with
    the same contents. *)
Theorem getAll_twice m m1 m2 l1 l2 :
  RepositoryHeap.getAll m = Some (l1, m1) →
  RepositoryHeap.getAll m1 = Some (l2, m2) →
  l1 ≠ l2 ∧ heap m2 !! l1 = heap m2 !! l2.
Proof.
  unfold RepositoryHeap.getAll. intros Hget1 Hget2.
  destruct (heap m !! RepositoryHeap.tasks m) as [arr|] eqn:Harr;
    simpl in Hget1; [| done].
  injection Hget1 as <- <-. simpl in *.
  assert (Hfresh : heap m !! fresh (dom (heap m)) = None)
    by apply not_elem_of_dom, is_fresh.
  assert (Hne : fresh (dom (heap m)) ≠ RepositoryHeap.tasks m)
    by (intros Heq; rewrite Heq in Hfresh; congruence).
  rewrite lookup_insert_ne, Harr in Hget2 by done. simpl in Hget2.
  injection Hget2 as <- <-. simpl.
  set (h1 := <[fresh (dom (heap m)) := arr]> (heap m)).
  assert (Hne2 : fresh (dom (heap m)) ≠ fresh (dom h1)).
  { intros Heq. pose proof (is_fresh (dom h1)) as Hnot. apply Hnot.
    rewrite <- Heq. apply elem_of_dom. unfold h1. rewrite lookup_insert_eq.
    by eexists. }
  split; [done |].
  rewrite lookup_insert_eq, lookup_insert_ne by done.
  unfold h1. by rewrite lookup_insert_eq.
Qed.

Lemma getAll_twice_witness :
  match RepositoryHeap.getAll RepositoryHeap.initial with
  | Some (l1, m1) =>
      match RepositoryHeap.getAll m1 with
      | Some (l2, m2) => l1 ≠ l2
      | None => False
      end
  | None => False
  end.
Proof.
  destruct (RepositoryHeap.getAll RepositoryHeap.initial) as [[l1 m1]|] eqn:H1;
    [| by vm_compute in H1].
  destruct (RepositoryHeap.getAll m1) as [[l2 m2]|] eqn:H2.
  - apply (getAll_twice RepositoryHeap.initial m1 m2 l1 l2 H1 H2).
  - vm_compute in H1. injection H1 as <- <-. by vm_compute in H2.
Defined.

End heap_snapshots.

(** ** The routes as a whole *)

Section application.

Import Repository Router App.

Context `{Platform}.

Implicit Types (req : request) (w : world) (r : response) (st : store)
  (e : endpoint) (c : completion response).

Lemma authenticated_dec req : authenticated req ∨ ¬ authenticated req.
Proof.
  unfold authenticated. destruct (authorization req) as [token|].
  - destruct (String.eqb_spec token "") as [-> | Hne].
    + right. by intros (? & [= <-] & ? & _).
    + destruct (jwt_verify token) eqn:Hverify.
      * left. by exists token.
      * right. intros (? & [= <-] & _ & ?). congruence.
  - right. by intros (? & ? & _).
Qed.

Lemma get_root_run req w :
  route_get req w =
    (Normal (Response 200 (Json (VArr (map task_json (tasks (repo w)))))),
     logged w [EvRepository GetAll]).
Proof. done. Qed.

(** What a request does to the store: nothing, one [create], or one
    [remove]. *)
Lemma handle_outcome e req w :
  ∃ r st' evs,
    handle e req w = (Normal r, World st' (log w ++ evs)) ∧
    (EvRepository Reset ∉ evs) ∧
    ((st' = repo w ∧
      status r ∈ match e with
                 | GET_root => [200]
                 | POST_create => [400; 401; 500]
                 | DELETE_id => [401]
                 end) ∨
     (e = POST_create ∧ ∃ d,
        st' = (create d (repo w)).2 ∧
        r = Response 201 (Json (task_json (create d (repo w)).1))) ∨
     (e = DELETE_id ∧ ∃ i,
        st' = (remove i (repo w)).2 ∧
        r = if (remove i (repo w)).1 then Response 204 Empty
            else Response 404 (Json (VObj [("error", VStr "Task not found")])))).
Proof.
  assert (Hno : ∀ evs, Forall (λ ev, ev ≠ EvRepository Reset) evs →
                       EvRepository Reset ∉ evs).
  { intros evs Hall Hin. rewrite Forall_forall in Hall. by apply (Hall _ Hin). }
  destruct e; simpl.
  - rewrite get_root_run. do 3 eexists. split; [done |].
    split; [apply Hno; by repeat constructor |].
    left. split; [done | set_solver].
  - destruct (authenticated_dec req) as [Hauth | Hauth].
    + unfold route_post_create. rewrite protected_passes by done.
      destruct (post_create_cases req (logged w [EvAuth]))
        as [(r & -> & Hstatus) | (task & d & _ & _ & _ & _ & ->)]; simpl.
      * exists r, (repo w), [EvAuth; EvValidate]. unfold logged. simpl.
        rewrite <- app_assoc.
        split; [done |]. split; [apply Hno; by repeat constructor |].
        left. split; [done |]. destruct Hstatus as [-> | ->]; set_solver.
      * do 2 eexists. exists [EvAuth; EvValidate; EvRepository (Create d)].
        rewrite <- app_assoc. split; [done |].
        split; [apply Hno; by repeat constructor |].
        right. left. split; [done |]. by exists d.
    + destruct (protected_rejects post_create req w Hauth) as (r & Hrun & Hstatus).
      exists r, (repo w), [EvAuth]. split; [done |].
      split; [apply Hno; by repeat constructor |].
      left. split; [done |]. rewrite Hstatus. set_solver.
  - destruct (authenticated_dec req) as [Hauth | Hauth].
    + unfold route_delete. rewrite protected_passes, delete_id_run by done.
      do 2 eexists.
      exists [EvAuth; EvValidate; EvRepository (Remove (parseInt (params_id req)))].
      simpl. rewrite <- app_assoc. split; [done |].
      split; [apply Hno; by repeat constructor |].
      right. right. split; [done |]. by eexists.
    + destruct (protected_rejects delete_id req w Hauth) as (r & Hrun & Hstatus).
      exists r, (repo w), [EvAuth]. split; [done |].
      split; [apply Hno; by repeat constructor |].
      left. split; [done |]. rewrite Hstatus. set_solver.
Qed.

(** The repository calls a request stands for. *)
Lemma handle_as_run e req w :
  ∃ c w' ops,
    handle e req w = (c, w') ∧ (Reset ∉ ops) ∧
    repo w' = (run ops (repo w)).2 ∧
    from_option (λ z, [z]) [] (created_id c) = created_ids (run ops (repo w)).1.
Proof.
  destruct (handle_outcome e req w)
    as (r & st' & evs & -> & _ &
        [[-> Hstatus] | [(_ & d & -> & ->) | (_ & i & -> & ->)]]).
  - do 2 eexists. exists []. repeat split; [apply not_elem_of_nil |].
    simpl. destruct (Z.eqb_spec (status r) 201) as [Heq | _]; [| done].
    rewrite Heq in Hstatus.
    destruct e;
      repeat (apply elem_of_cons in Hstatus as [Hstatus | Hstatus]; [discriminate |]);
      by apply elem_of_nil in Hstatus.
  - do 2 eexists. exists [Create d]. repeat split.
    intros [=]%list_elem_of_singleton.
  - do 2 eexists. exists [Remove i]. repeat split.
    + intros [=]%list_elem_of_singleton.
    + simpl. by destruct (remove i (repo w)) as [[] st'].
    + simpl. by destruct (remove i (repo w)) as [[] st'].
Qed.

Lemma created_ids_app (a1 a2 : list answer) :
  created_ids (a1 ++ a2) = created_ids a1 ++ created_ids a2.
Proof.
  induction a1 as [|[] a1 IH]; simpl; [done | done | | done | done].
  by rewrite IH.
Qed.

Lemma serve_as_run (reqs : list (endpoint * request)) w :
  ∃ ops,
    (Reset ∉ ops) ∧
    repo (serve reqs w).2 = (run ops (repo w)).2 ∧
    omap created_id (serve reqs w).1 = created_ids (run ops (repo w)).1.
Proof.
  revert w. induction reqs as [|[e req] reqs IH]; intros w; simpl.
  - exists []. repeat split. apply not_elem_of_nil.
  - destruct (handle_as_run e req w) as (c & w1 & ops1 & -> & Hno1 & Hrepo1 & Hids1).
    destruct (IH w1) as (ops2 & Hno2 & Hrepo2 & Hids2).
    destruct (serve reqs w1) as [cs w2]. simpl in *.
    exists (ops1 ++ ops2). rewrite run_app. simpl.
    rewrite created_ids_app, <- Hrepo1, <- Hids1, <- Hids2.
    repeat split; [| done |].
    + intros [?|?]%elem_of_app; done.
    + by destruct (created_id c).
Qed.

(** X10. [GET /] needs no token and only reads: any number of [GET /]
    requests, whatever their headers and bodies, are all answered 200 with
    the array of all stored tasks in order, and leave the store as it
    was. *)
Theorem get_requests_only_read (reqs : list request) w :
  (serve (map (λ req, (GET_root, req)) reqs) w).1
    = map (λ _, Normal (Response 200
                          (Json (VArr (map task_json (tasks (repo w)))))))
          reqs ∧
  repo (serve (map (λ req, (GET_root, req)) reqs) w).2 = repo w.
Proof.
  revert w. induction reqs as [|req reqs IH]; intros w; simpl; [done |].
  specialize (IH (logged w [EvRepository GetAll])).
  unfold logged in IH. simpl in IH.
  destruct (serve _ _) as [cs w'].
  simpl in *. destruct IH as [-> Hrepo]. by split.
Qed.

(** X11. Every request to one of the three routes is answered: no
    exception leaves a handler, and the status is 200 for [GET /], one of
    201, 400, 401, 500 for [POST /create], and one of 204, 404, 401 for
    [DELETE /:id]. *)
Theorem every_request_is_answered e req w :
  ∃ r w',
    handle e req w = (Normal r, w') ∧
    status r ∈ match e with
               | GET_root => [200]
               | POST_create => [201; 400; 401; 500]
               | DELETE_id => [204; 404; 401]
               end.
Proof.
  destruct (handle_outcome e req w)
    as (r & st' & evs & -> & _ &
        [[_ Hstatus] | [(-> & d & _ & ->) | (-> & i & _ & ->)]]).
  - do 2 eexists. split; [done |].
    destruct e; rewrite ?elem_of_cons, ?elem_of_nil in *; tauto.
  - do 2 eexists. split; [done |]. by left.
  - do 2 eexists. split; [done |]. destruct (remove i (repo w)).1; set_solver.
Qed.

(** X12. No sequence of requests resets the store: it changes the store as
    some sequence of [getAll], [create] and [remove] calls would, so the
    counter never goes down and the ids stay distinct and below it. *)
Theorem requests_never_reset (reqs : list (endpoint * request)) w :
  (∃ ops, (Reset ∉ ops) ∧ repo (serve reqs w).2 = (run ops (repo w)).2) ∧
  nextId (repo w) ≤ nextId (repo (serve reqs w).2) ∧
  (id_invariant (repo w) → id_invariant (repo (serve reqs w).2)).
Proof.
  destruct (serve_as_run reqs w) as (ops & Hno & Hrepo & _).
  split; [by exists ops |]. rewrite Hrepo. split.
  - by apply run_without_reset.
  - clear Hrepo Hno. revert ops. generalize (repo w). intros st ops.
    revert st. induction ops as [|o ops IH]; intros st Hinv; simpl; [done |].
    pose proof (id_invariant_step o st Hinv) as Hstep.
    destruct (step o st) as [a st1]. specialize (IH st1 Hstep).
    by destruct (run ops st1).
Qed.

(** X13. Over any sequence of requests, the ids in the 201 responses are
    consecutive integers from the counter on, in the order of the
    responses; rejected requests and deletions between them use up no
    id. *)
Theorem http_ids_consecutive (reqs : list (endpoint * request)) w :
  omap created_id (serve reqs w).1
    = seqZ (nextId (repo w))
           (Z.of_nat (length (omap created_id (serve reqs w).1))) ∧
  nextId (repo (serve reqs w).2)
    = nextId (repo w) + Z.of_nat (length (omap created_id (serve reqs w).1)).
Proof.
  destruct (serve_as_run reqs w) as (ops & Hno & -> & ->).
  by apply run_ids_consecutive.
Qed.

(** X14. For every [DELETE /:id] request that passes authentication and
    whose segment [parseInt] reads as an integer, the response is 204 when
    a stored task has that id and 404 otherwise; afterwards the store holds
    exactly the tasks with another id, in their order. *)
Theorem delete_by_id req w (z : Z) :
  authenticated req → reachable (repo w) →
  parseInt (params_id req) = Int z →
  route_delete req w =
    (Normal (if bool_decide (z ∈ ids (repo w)) then Response 204 Empty
             else Response 404 (Json (VObj [("error", VStr "Task not found")]))),
     World (Store (filter (λ t, id t ≠ z) (tasks (repo w))) (nextId (repo w)))
           (log w ++ [EvAuth; EvValidate; EvRepository (Remove (Int z))])).
Proof.
  intros Hauth Hinv%reachable_invariant Hparse. unfold route_delete.
  rewrite protected_passes, delete_id_run, Hparse by done.
  simpl. rewrite remove_filter by done. simpl.
  by rewrite <- app_assoc.
Qed.

End application.

(** ** Numerals: [parseInt] and the ids the clients print *)

Section numerals.

Import Router App.

Implicit Types (s ds rest acc : string) (c : ascii) (n d v : Z) (a : option Z).

Lemma digit_char_digit d :
  0 ≤ d ≤ 9 →
  digit (digit_char d) = Some d ∧ isWhiteSpace (digit_char d) = false ∧
  Ascii.eqb (digit_char d) "-" = false ∧ Ascii.eqb (digit_char d) "+" = false.
Proof.
  intros Hd.
  assert (d = 0 ∨ d = 1 ∨ d = 2 ∨ d = 3 ∨ d = 4 ∨ d = 5 ∨ d = 6 ∨ d = 7 ∨
          d = 8 ∨ d = 9) as Hcases by lia.
  repeat (destruct Hcases as [-> | Hcases]; [done |]). by subst.
Qed.

Lemma digit_not_space c d :
  digit c = Some d →
  isWhiteSpace c = false ∧ Ascii.eqb c "-" = false ∧ Ascii.eqb c "+" = false.
Proof.
  unfold digit, isWhiteSpace. intros Hd.
  destruct ((48 <=? Z.of_N (N_of_ascii c)) && (Z.of_N (N_of_ascii c) <=? 57))
    eqn:Hrange; [| done].
  apply andb_true_iff in Hrange as [Hlo%Z.leb_le Hhi%Z.leb_le].
  repeat split.
  - destruct (Z.leb_spec 9 (Z.of_N (N_of_ascii c))),
      (Z.leb_spec (Z.of_N (N_of_ascii c)) 13),
      (Z.eqb_spec (Z.of_N (N_of_ascii c)) 32),
      (Z.eqb_spec (Z.of_N (N_of_ascii c)) 160); simpl; try done; lia.
  - destruct (Ascii.eqb_spec c "-") as [-> | _]; [| done]. simpl in Hlo. lia.
  - destruct (Ascii.eqb_spec c "+") as [-> | _]; [| done]. simpl in Hlo. lia.
Qed.

Lemma decimal_head fuel n acc :
  0 ≤ n →
  ∃ k rest, 0 ≤ k ≤ 9 ∧ decimal (S fuel) n acc = String (digit_char k) rest.
Proof.
  revert n acc. induction fuel as [|fuel IH]; intros n acc Hn.
  - exists (n mod 10), acc. split; [pose proof (Z.mod_pos_bound n 10); lia |].
    simpl. by destruct (n <? 10).
  - change (decimal (S (S fuel)) n acc)
      with (if n <? 10 then String (digit_char (n mod 10)) acc
            else decimal (S fuel) (n / 10) (String (digit_char (n mod 10)) acc)).
    destruct (n <? 10).
    + exists (n mod 10), acc. split; [pose proof (Z.mod_pos_bound n 10); lia | done].
    + apply IH. apply Z.div_pos; lia.
Qed.

Lemma decimal_unfold fuel n acc :
  decimal (S fuel) n acc =
    if n <? 10 then String (digit_char (n mod 10)) acc
    else decimal fuel (n / 10) (String (digit_char (n mod 10)) acc).
Proof. done. Qed.

Lemma digits_decimal fuel n acc a :
  0 ≤ n < 2 ^ Z.of_nat (S fuel) →
  ∃ v, digits (decimal (S fuel) n acc) a = digits acc (Some v) ∧
       (default 0 a = 0 → v = n).
Proof.
  revert n acc a. induction fuel as [|fuel IH]; intros n acc a Hn;
    rewrite decimal_unfold;
    (assert (Hmod : 0 ≤ n mod 10 ≤ 9) by (pose proof (Z.mod_pos_bound n 10); lia));
    destruct (digit_char_digit _ Hmod) as (Hdigit & _);
    destruct (Z.ltb_spec n 10) as [Hsmall | Hbig].
  - simpl. rewrite Hdigit. eexists. split; [done |].
    intros ->. rewrite Z.mod_small by lia. lia.
  - simpl in Hn. lia.
  - simpl. rewrite Hdigit. eexists. split; [done |].
    intros ->. rewrite Z.mod_small by lia. lia.
  - rewrite Nat2Z.inj_succ, Z.pow_succ_r in Hn by lia.
    assert (Hdiv : 0 ≤ n / 10 < 2 ^ Z.of_nat (S fuel)).
    { split; [apply Z.div_pos; lia |].
      apply Z.div_lt_upper_bound; lia. }
    destruct (IH (n / 10) (String (digit_char (n mod 10)) acc) a Hdiv)
      as (v & -> & Hv).
    simpl. rewrite Hdigit. eexists. split; [done |].
    intros Ha. rewrite (Hv Ha). simpl.
    pose proof (Z.div_mod n 10). lia.
Qed.

Lemma digits_append ds rest a :
  all_digits ds = true →
  digits (ds +:+ rest) a = digits rest (digits ds a).
Proof.
  revert a. induction ds as [|c ds IH]; intros a Hall; simpl in *; [done |].
  apply andb_true_iff in Hall as [Hc Hds].
  apply bool_decide_eq_true in Hc as [d Hd]. rewrite Hd. by apply IH.
Qed.

Lemma digits_stop rest a :
  (∀ c rest', rest = String c rest' → digit c = None) →
  digits rest a = a.
Proof.
  intros Hrest. destruct rest as [|c rest']; simpl; [done |].
  by rewrite (Hrest c rest' eq_refl).
Qed.

(** A numeral followed by something that is no digit is read as the
    numeral alone. *)
Lemma parseInt_numeral_prefix ds rest :
  is_numeral ds = true →
  (∀ c rest', rest = String c rest' → digit c = None) →
  parseInt (ds +:+ rest) = parseInt ds.
Proof.
  intros [Hne Hall]%andb_true_iff Hrest.
  destruct ds as [|c ds]; [done |]. clear Hne.
  pose proof Hall as [Hc _]%andb_true_iff.
  apply bool_decide_eq_true in Hc as [d Hd].
  destruct (digit_not_space c d Hd) as (Hspace & Hminus & Hplus).
  unfold parseInt. simpl trimStart. rewrite Hspace, Hminus, Hplus.
  change (String c (ds +:+ rest)) with (String c ds +:+ rest).
  by rewrite digits_append, digits_stop.
Qed.

Lemma parseInt_trimStart s : parseInt s = parseInt (trimStart s).
Proof.
  unfold parseInt. f_equal.
  assert (Hidem : trimStart (trimStart s) = trimStart s); [| by rewrite Hidem].
  induction s as [|c s IH]; simpl; [done |].
  destruct (isWhiteSpace c) eqn:Hc; [done |]. simpl. by rewrite Hc.
Qed.

Lemma parseInt_numeral_of n :
  parseInt (if n <? 0
            then String "-" (decimal (S (Z.to_nat (Z.log2 (- n)))) (- n) "")
            else decimal (S (Z.to_nat (Z.log2 n))) n "")
  = Int n.
Proof.
  assert (Hfuel : ∀ k, 0 ≤ k → 0 ≤ k < 2 ^ Z.of_nat (S (Z.to_nat (Z.log2 k)))).
  { intros k Hk. rewrite Nat2Z.inj_succ, Z2Nat.id by apply Z.log2_nonneg.
    destruct (Z.eq_dec k 0) as [-> | Hpos]; [done |].
    pose proof (Z.log2_spec k). lia. }
  destruct (Z.ltb_spec n 0) as [Hneg | Hpos].
  - destruct (digits_decimal _ (- n) "" None (Hfuel (- n) ltac:(lia)))
      as (v & Hdigits & Hv).
    remember (decimal (S (Z.to_nat (Z.log2 (- n)))) (- n) "") as body.
    unfold parseInt. simpl. rewrite Hdigits. simpl.
    rewrite Hv by done. f_equal. lia.
  - destruct (decimal_head (Z.to_nat (Z.log2 n)) n "" Hpos)
      as (k & rest & Hk & Hhead).
    destruct (digit_char_digit k Hk) as (_ & Hspace & Hminus & Hplus).
    destruct (digits_decimal _ n "" None (Hfuel n Hpos)) as (v & Hdigits & Hv).
    unfold parseInt. rewrite Hhead in *. simpl trimStart.
    rewrite Hspace, Hminus, Hplus, Hdigits. simpl. rewrite Hv by done.
    f_equal. lia.
Qed.

Lemma parseInt_decimal n s : to_string n = Some s → parseInt s = Int n.
Proof.
  unfold to_string. destruct (Z.abs n <=? MAX_SAFE_INTEGER); [| done].
  intros Heq. apply (inj Some) in Heq. rewrite <- Heq.
  apply parseInt_numeral_of.
Qed.

End numerals.

(** ** Requests as the tests send them *)

Section request_scenarios.

Import Repository Router App.

Context `{Platform}.

Implicit Types (req : request) (w : world) (r : response) (st : store)
  (s token : string) (d task : value).

Lemma post_create_missing req w task :
  authenticated req →
  get (body req) "task" = Normal task →
  truthy task = false ∨
  (∃ d, get task "description" = Normal d ∧ truthy d = false) →
  route_post_create req w
    = (Normal task_required, logged w [EvAuth; EvValidate]).
Proof.
  intros Hauth Hget Hmissing. unfold route_post_create.
  rewrite protected_passes by done.
  unfold post_create, try_catch, mbind, M_bind, lift, emit, logged. simpl.
  rewrite Hget, <- app_assoc. simpl.
  destruct Hmissing as [-> | (d & Hd & Hfalsy)]; [done |].
  destruct (truthy task); [| done]. by rewrite Hd, Hfalsy.
Qed.

Lemma post_create_text req w task s :
  authenticated req →
  get (body req) "task" = Normal task → truthy task = true →
  get task "description" = Normal (VStr s) →
  route_post_create req w =
    if String.eqb s "" then
      (Normal task_required, logged w [EvAuth; EvValidate])
    else if Z.of_nat (String.length s) <? 3 then
      (Normal description_too_short, logged w [EvAuth; EvValidate])
    else
      (Normal (Response 201
                 (Json (VObj [("id", VNum (Int (nextId (repo w))));
                              ("description", VStr s)]))),
       World (create (VStr s) (repo w)).2
             (log w ++ [EvAuth; EvValidate; EvRepository (Create (VStr s))])).
Proof.
  intros Hauth Hget Htask Hd. unfold route_post_create.
  rewrite protected_passes by done.
  unfold post_create, try_catch, mbind, M_bind, lift, emit, logged. simpl.
  rewrite Hget, Htask, Hd, <- app_assoc. simpl.
  destruct (String.eqb s ""); simpl; [done |].
  destruct (Z.of_nat (String.length s) <? 3); simpl; [done |].
  unfold todoRepo_create, call, on_store, mbind, M_bind, emit. simpl.
  by rewrite <- app_assoc.
Qed.

Lemma route_delete_ext req req' w :
  authorization req = authorization req' →
  parseInt (params_id req) = parseInt (params_id req') →
  route_delete req w = route_delete req' w.
Proof.
  intros Hauth Hparse. unfold route_delete, protected, mbind, M_bind, auth.
  rewrite Hauth. simpl.
  destruct (authorization req') as [token|]; simpl; [| done].
  destruct (negb (negb (String.eqb token ""))); simpl; [done |].
  destruct (jwt_verify token); simpl; [| done].
  by rewrite !delete_id_run, Hparse.
Qed.

Lemma remove_created d st :
  id_invariant st →
  remove (Int (nextId st)) (create d st).2
    = (true, Store (tasks st) (nextId st + 1)).
Proof.
  intros Hinv. rewrite remove_filter by by apply id_invariant_create.
  destruct Hinv as [Hlt _]. simpl. f_equal.
  - apply bool_decide_eq_true_2. unfold ids. simpl. rewrite map_app.
    apply elem_of_app. right. by left.
  - f_equal. rewrite filter_app, filter_cons_False, filter_nil, app_nil_r
      by (simpl; intros Hne; by apply Hne).
    apply filter_all. eapply Forall_impl; [exact Hlt |].
    intros t Ht. simpl in *. lia.
Qed.

Lemma serve_cons e req (rest : list (endpoint * request)) w :
  serve ((e, req) :: rest) w =
    let '(c, w') := handle e req w in
    let '(cs, w'') := serve rest w' in
    (c :: cs, w'').
Proof. done. Qed.

Lemma authenticated_token token (b : value) (segment : string) :
  token ≠ "" → jwt_verify token = true →
  authenticated (Request (Some token) b segment).
Proof. intros Hne Hverify. by exists token. Qed.

Lemma delete_created req d st (lg : list event) :
  authenticated req → id_invariant st →
  parseInt (params_id req) = Int (nextId st) →
  route_delete req (World (create d st).2 lg) =
    (Normal (Response 204 Empty),
     World (Store (tasks st) (nextId st + 1))
           (lg ++ [EvAuth; EvValidate; EvRepository (Remove (Int (nextId st)))])).
Proof.
  intros Hauth Hinv Hid. unfold route_delete.
  rewrite protected_passes, delete_id_run, Hid by done.
  cbn [repo logged log]. rewrite remove_created by done.
  cbn [fst snd]. by rewrite <- app_assoc.
Qed.

(** X15. The id a client prints into the path is the id [DELETE /:id]
    looks for: for every safe integer [z] (below 2^53 in absolute value),
    an authenticated [DELETE] of the decimal numeral of [z] is answered 204
    when a stored task has id [z] and 404 otherwise, and leaves exactly the
    stored tasks with another id. *)
Theorem delete_printed_id token z s w :
  token ≠ "" → jwt_verify token = true →
  reachable (repo w) →
  to_string z = Some s →
  route_delete (delete_request (Some token) s) w =
    (Normal (if bool_decide (z ∈ ids (repo w)) then Response 204 Empty
             else Response 404 (Json (VObj [("error", VStr "Task not found")]))),
     World (Store (filter (λ t, id t ≠ z) (tasks (repo w))) (nextId (repo w)))
           (log w ++ [EvAuth; EvValidate; EvRepository (Remove (Int z))])).
Proof.
  intros Hne Hverify Hinv%reachable_invariant Hprint%parseInt_decimal.
  unfold route_delete.
  rewrite protected_passes, delete_id_run by by apply authenticated_token.
  cbn [params_id delete_request]. rewrite Hprint.
  cbn [repo logged log]. rewrite remove_filter by done.
  cbn [fst snd]. by rewrite <- app_assoc.
Qed.

(** X16. [DELETE /:id] reads the segment leniently: after leading white
    space, a numeral followed by anything that does not start with a digit
    is handled exactly as the numeral alone, so [/7abc], [/7.9] and
    [/%207] all address the task with id 7. *)
Theorem delete_reads_numeric_prefix req req' w (ds rest : string) :
  authorization req = authorization req' →
  is_numeral ds = true →
  (∀ c rest', rest = String c rest' → digit c = None) →
  trimStart (params_id req) = ds +:+ rest →
  params_id req' = ds →
  route_delete req w = route_delete req' w.
Proof.
  intros Hauth Hds Hrest Htrim Hid. apply route_delete_ext; [done |].
  rewrite parseInt_trimStart, Htrim, Hid. by apply parseInt_numeral_prefix.
Qed.

(** X17. A task created over HTTP can be deleted by the id of the 201
    response: [POST /create] with a description of at least 3 characters,
    then [DELETE] of a segment that [parseInt] reads as that id (its
    decimal numeral, for one), then [GET /], all with a valid token, are
    answered 201, 204 and 200 with the array of tasks as it was before the
    creation. *)
Theorem create_delete_get token s segment req w :
  token ≠ "" → jwt_verify token = true →
  3 ≤ Z.of_nat (String.length s) →
  reachable (repo w) →
  parseInt segment = Int (nextId (repo w)) →
  (serve [(POST_create, create_request (Some token) (VStr s));
          (DELETE_id, delete_request (Some token) segment);
          (GET_root, req)] w).1
  = [Normal (Response 201
               (Json (VObj [("id", VNum (Int (nextId (repo w))));
                            ("description", VStr s)])));
     Normal (Response 204 Empty);
     Normal (Response 200 (Json (VArr (map task_json (tasks (repo w))))))].
Proof.
  intros Hne Hverify Hlen Hinv%reachable_invariant Hsegment.
  assert (Hs : String.eqb s "" = false) by (by destruct s).
  assert (Hshort : (Z.of_nat (String.length s) <? 3) = false)
    by (apply Z.ltb_ge; lia).
  rewrite serve_cons. cbn [handle].
  rewrite (post_create_text _ w (VObj [("description", VStr s)]) s)
    by first [done | by apply authenticated_token].
  rewrite Hs, Hshort.
  rewrite serve_cons. cbn [handle].
  rewrite delete_created by first [done | by apply authenticated_token].
  rewrite serve_cons. cbn [handle]. rewrite get_root_run. done.
Qed.

(** X18. A task created over HTTP appears in the next [GET /] as the last
    element of the array, after all the tasks stored before, with the id
    of the 201 response and the description that was sent. *)
Theorem created_task_is_listed token s req w :
  token ≠ "" → jwt_verify token = true →
  3 ≤ Z.of_nat (String.length s) →
  (serve [(POST_create, create_request (Some token) (VStr s));
          (GET_root, req)] w).1
  = [Normal (Response 201
               (Json (VObj [("id", VNum (Int (nextId (repo w))));
                            ("description", VStr s)])));
     Normal (Response 200
               (Json (VArr (map task_json (tasks (repo w))
                            ++ [VObj [("id", VNum (Int (nextId (repo w))));
                                      ("description", VStr s)]]))))].
Proof.
  intros Hne Hverify Hlen.
  assert (Hs : String.eqb s "" = false) by (by destruct s).
  assert (Hshort : (Z.of_nat (String.length s) <? 3) = false)
    by (apply Z.ltb_ge; lia).
  rewrite serve_cons. cbn [handle].
  rewrite (post_create_text _ w (VObj [("description", VStr s)]) s)
    by first [done | by apply authenticated_token].
  rewrite Hs, Hshort.
  rewrite serve_cons. cbn [handle]. rewrite get_root_run.
  simpl. by rewrite map_app.
Qed.

(** X19. On a route behind [auth], a request with no Authorization header
    or with an empty one is answered 401 "No token provided" whatever the
    token check would say; a request with a non-empty token that fails the
    check is answered 401 "Failed to authenticate token".  In both cases
    the handler is not run and the store is unchanged. *)
Theorem rejected_requests (handler : request → M response) req w :
  (authorization req = None ∨ authorization req = Some "" →
   protected handler req w = (Normal no_token, logged w [EvAuth])) ∧
  (∀ token, authorization req = Some token → token ≠ "" →
     jwt_verify token = false →
     protected handler req w = (Normal bad_token, logged w [EvAuth])).
Proof.
  unfold protected, mbind, M_bind, auth. split.
  - by intros [-> | ->].
  - intros token -> Hne%String.eqb_neq Hverify. simpl.
    by rewrite Hne, Hverify.
Qed.

(** X20. A [POST /create] request that passes authentication but has no
    parsed body ([req.body] is [undefined] or [null]) makes the handler
    throw on reading [task]; the error handler answers 500, and the
    repository is not called. *)
Theorem post_without_body req w :
  authenticated req →
  body req = VUndefined ∨ body req = VNull →
  route_post_create req w
    = (Normal (Response 500 (ErrorJson TypeError 500)),
       logged w [EvAuth; EvValidate]).
Proof.
  intros Hauth Hbody. unfold route_post_create.
  rewrite protected_passes by done.
  unfold post_create, try_catch, mbind, M_bind, lift, emit, logged. simpl.
  rewrite <- app_assoc. by destruct Hbody as [-> | ->].
Qed.

(** X21. The two messages of a rejected [POST /create]: a task or a
    description that is missing or falsy (the empty string included) is
    answered 400 "Task is required"; a non-empty text of fewer than 3
    characters is answered 400 "Description must be at least 3 characters
    long".  Neither case calls the repository. *)
Theorem post_rejection_messages req w task :
  authenticated req →
  get (body req) "task" = Normal task →
  (truthy task = false ∨
   (∃ d, get task "description" = Normal d ∧ truthy d = false) →
   route_post_create req w
     = (Normal task_required, logged w [EvAuth; EvValidate])) ∧
  (∀ s, truthy task = true → get task "description" = Normal (VStr s) →
     s ≠ "" → Z.of_nat (String.length s) < 3 →
     route_post_create req w
       = (Normal description_too_short, logged w [EvAuth; EvValidate])).
Proof.
  intros Hauth Hget. split.
  - by apply post_create_missing.
  - intros s Htask Hd Hne%String.eqb_neq Hshort%Z.ltb_lt.
    by rewrite (post_create_text req w task s), Hne, Hshort.
Qed.

End request_scenarios.

(** ** Concrete runs of the further properties *)

Section concrete_scenarios.

Import Repository Router App.

#[local] Existing Instance demo_platform.

Lemma requests_never_reset_witness :
  id_invariant
    (repo (serve [(POST_create, create_request (Some "signed-token") (VStr "buy milk"));
                  (DELETE_id, delete_request (Some "signed-token") "1")]
             (World initial [])).2).
Proof.
  apply requests_never_reset. split; constructor.
Defined.

Lemma delete_by_id_witness :
  route_delete (delete_request (Some "signed-token") "2")
    (World (Store [Task 1 (VStr "a"); Task 2 (VStr "b")] 3) [])
  = (Normal (Response 204 Empty),
     World (Store [Task 1 (VStr "a")] 3)
           [EvAuth; EvValidate; EvRepository (Remove (Int 2))]).
Proof.
  apply (delete_by_id (delete_request (Some "signed-token") "2")
           (World (Store [Task 1 (VStr "a"); Task 2 (VStr "b")] 3) []) 2).
  - by exists "signed-token".
  - by exists [Create (VStr "a"); Create (VStr "b")].
  - reflexivity.
Defined.

Lemma delete_reads_numeric_prefix_witness :
  route_delete (Request (Some "signed-token") VUndefined " 7abc")
    (World initial [])
  = route_delete (Request (Some "signed-token") VUndefined "7")
      (World initial []).
Proof.
  apply (delete_reads_numeric_prefix _ _ _ "7" "abc").
  - reflexivity.
  - reflexivity.
  - by intros c rest' [= <- _].
  - reflexivity.
  - reflexivity.
Defined.

Lemma create_delete_get_witness :
  (serve [(POST_create, create_request (Some "signed-token") (VStr "Task to delete"));
          (DELETE_id, delete_request (Some "signed-token") "1");
          (GET_root, Request None VUndefined "")]
     (World initial [])).1
  = [Normal (Response 201
               (Json (VObj [("id", VNum (Int 1));
                            ("description", VStr "Task to delete")])));
     Normal (Response 204 Empty);
     Normal (Response 200 (Json (VArr [])))].
Proof.
  apply (create_delete_get "signed-token" "Task to delete" "1"
           (Request None VUndefined "") (World initial [])).
  - discriminate.
  - reflexivity.
  - simpl. lia.
  - by exists [].
  - reflexivity.
Defined.

Lemma delete_printed_id_witness :
  to_string 2 = Some "2" ∧
  route_delete (delete_request (Some "signed-token") "2")
    (World (Store [Task 1 (VStr "a"); Task 2 (VStr "b")] 3) [])
  = (Normal (Response 204 Empty),
     World (Store [Task 1 (VStr "a")] 3)
           [EvAuth; EvValidate; EvRepository (Remove (Int 2))]).
Proof.
  split; [reflexivity |].
  apply (delete_printed_id "signed-token" 2 "2"
           (World (Store [Task 1 (VStr "a"); Task 2 (VStr "b")] 3) [])).
  - discriminate.
  - reflexivity.
  - by exists [Create (VStr "a"); Create (VStr "b")].
  - reflexivity.
Defined.

Lemma created_task_is_listed_witness :
  (serve [(POST_create,
           create_request (Some "signed-token") (VStr "Integration test task"));
          (GET_root, Request None VUndefined "")]
     (World initial [])).1
  = [Normal (Response 201
               (Json (VObj [("id", VNum (Int 1));
                            ("description", VStr "Integration test task")])));
     Normal (Response 200
               (Json (VArr [VObj [("id", VNum (Int 1));
                                  ("description", VStr "Integration test task")]])))].
Proof.
  apply (created_task_is_listed "signed-token" "Integration test task"
           (Request None VUndefined "") (World initial [])).
  - discriminate.
  - reflexivity.
  - simpl. lia.
Defined.

Lemma rejected_requests_witness :
  protected post_create (create_request None (VStr "X")) (World initial [])
    = (Normal no_token, World initial [EvAuth]) ∧
  protected post_create (create_request (Some "invalid-token") (VStr "Test task"))
    (World initial [])
    = (Normal bad_token, World initial [EvAuth]).
Proof.
  split.
  - apply (rejected_requests post_create (create_request None (VStr "X"))
             (World initial [])). by left.
  - apply (proj2 (rejected_requests post_create
                    (create_request (Some "invalid-token") (VStr "Test task"))
                    (World initial [])) "invalid-token").
    + reflexivity.
    + discriminate.
    + reflexivity.
Defined.

Lemma post_without_body_witness :
  route_post_create (Request (Some "signed-token") VUndefined "")
    (World initial [])
  = (Normal (Response 500 (ErrorJson TypeError 500)),
     World initial [EvAuth; EvValidate]).
Proof.
  apply (post_without_body (Request (Some "signed-token") VUndefined "")
           (World initial [])).
  - by exists "signed-token".
  - by left.
Defined.

Lemma post_rejection_messages_witness :
  route_post_create
    (Request (Some "signed-token") (VObj [("task", VNull)]) "")
    (World initial [])
  = (Normal task_required, World initial [EvAuth; EvValidate]) ∧
  route_post_create (create_request (Some "signed-token") (VStr "A"))
    (World initial [])
  = (Normal description_too_short, World initial [EvAuth; EvValidate]).
Proof.
  split.
  - apply (post_rejection_messages
             (Request (Some "signed-token") (VObj [("task", VNull)]) "")
             (World initial []) VNull).
    + by exists "signed-token".
    + reflexivity.
    + by left.
  - apply (proj2 (post_rejection_messages
                    (create_request (Some "signed-token") (VStr "A"))
                    (World initial []) (VObj [("description", VStr "A")])
                    ltac:(by exists "signed-token") eq_refl) "A").
    + reflexivity.
    + reflexivity.
    + discriminate.
    + simpl. lia.
Defined.

End concrete_scenarios.
